(** * tree-structure: a shallow embedding of [main.py]

    [main.py] walks a directory ([build_tree]), prints the result as an
    indented tree ([display_tree]), dumps it as JSON and turns it into a
    pydot graph ([add_nodes_edges_from_tree], [generate_tree_image]).

    The embedding keeps the program's own data: the tree is the Python
    value [build_tree] returns (a [dict] in insertion order, [None] or a
    [str]), a [str] is the string of its UTF-8 bytes, the file system is
    the [os] calls the program makes, and exceptions are explicit
    results.  [build_tree] takes fuel, the number of nested calls it may
    make: a directory tree can be as deep as one likes. *)

From Stdlib Require Import String Ascii List ZArith Lia Bool Orders.
From Stdlib Require Import Sorting.Sorted Sorting.Permutation Sorting.Mergesort.
Import ListNotations.
Open Scope string_scope.
Open Scope list_scope.

(** ** Exceptions and results *)

(** The exceptions the program can meet: the [OSError] family raised by
    [os.listdir], and the [AttributeError] of a method call on an object
    that lacks it. *)
Inductive exn : Type :=
| PermissionError
| FileNotFoundError
| NotADirectoryError
| OSError
| AttributeError.

Inductive result (A : Type) : Type :=
| Ok (a : A)
| Raise (e : exn).
Arguments Ok {A} a.
Arguments Raise {A} e.

(** ** Python values produced by [build_tree] *)

#[warnings="-register-all"]
Inductive value : Type :=
| VNone
| VStr (s : string)
| VDict (items : list (string * value)).

(** A [dict] keeps its keys in insertion order; assigning to a key that is
    already present replaces the value and leaves the key where it is. *)
Definition dict (V : Type) : Type := list (string * V).

Fixpoint dict_set {V : Type} (d : dict V) (k : string) (v : V) : dict V :=
  match d with
  | [] => [(k, v)]
  | (k', v') :: d' =>
      if String.eqb k' k then (k', v) :: d' else (k', v') :: dict_set d' k v
  end.

Fixpoint dict_get {V : Type} (d : dict V) (k : string) : option V :=
  match d with
  | [] => None
  | (k', v') :: d' => if String.eqb k' k then Some v' else dict_get d' k
  end.

Definition keys {V : Type} (d : dict V) : list string := map fst d.

(** ** Strings and paths *)

Definition startswith (s p : string) : bool := String.prefix p s.

Fixpoint endswith_sep (s : string) : bool :=
  match s with
  | EmptyString => false
  | String c EmptyString => Ascii.eqb c "/"
  | String _ s' => endswith_sep s'
  end.

(** [posixpath.join] for two components. *)
Definition os_path_join (a b : string) : string :=
  if startswith b "/" then b
  else if orb (String.eqb a "") (endswith_sep a) then (a ++ b)%string
  else (a ++ "/" ++ b)%string.

(** The part of [p] after its last ["/"]: [posixpath.basename]. *)
Fixpoint os_path_basename (p : string) : string :=
  match p with
  | EmptyString => EmptyString
  | String c p' =>
      if Ascii.eqb c "/" then os_path_basename p'
      else
        let b := os_path_basename p' in
        if Nat.eqb (String.length b) (String.length p') then String c b else b
  end.

(** ** [sorted] on a list of [str]

    Python compares [str]s code point by code point, which on their
    UTF-8 bytes is comparing byte by byte.  On a total order the sorted
    list is unique, so any sorting function stands for [sorted]. *)

Module StringOrder <: TotalLeBool.
Definition t := string.
Definition leb := String.leb.
Theorem leb_total : forall a1 a2, leb a1 a2 = true \/ leb a2 a1 = true.
Proof. exact String.leb_total. Qed.
End StringOrder.

Module StringSort := Sort StringOrder.

Definition sorted (l : list string) : list string := StringSort.sort l.

(** ** The file system, as the program sees it *)

Record filesystem : Type := {
  os_listdir : string -> result (list string);
  os_path_isdir : string -> bool;
  os_path_exists : string -> bool;
  os_path_abspath : string -> string
}.

(** ** [build_tree] *)

Definition depth_message : string := "... (maximum depth reached)".
Definition access_denied : string := "🚫 Access Denied".

(** [max_depth is not None and current_depth >= max_depth] *)
Definition depth_limit_reached (max_depth : option Z) (current_depth : Z) : bool :=
  match max_depth with
  | Some m => (current_depth >=? m)%Z
  | None => false
  end.

Section Builder.
Variable fs : filesystem.

(** The body of the [for item in ...] loop.  [recur] is the recursive
    call of [build_tree]; [None] means it did not return.  The loop
    returns the dictionary as it stands when the loop ends, together with
    the exception that ended it, if one did. *)
Fixpoint build_items (recur : string -> option (result value))
    (directory : string) (show_hidden : bool)
    (items : list string) (tree : dict value)
    : option (dict value * option exn) :=
  match items with
  | [] => Some (tree, None)
  | item :: rest =>
      if andb (negb show_hidden) (startswith item ".") then
        build_items recur directory show_hidden rest tree
      else
        let full_path := os_path_join directory item in
        if os_path_isdir fs full_path then
          match recur full_path with
          | None => None
          | Some (Raise e) => Some (tree, Some e)
          | Some (Ok sub) =>
              build_items recur directory show_hidden rest (dict_set tree item sub)
          end
        else
          build_items recur directory show_hidden rest (dict_set tree item VNone)
  end.

(** [except PermissionError: tree[...] = None], then [return tree];
    any other exception leaves the function. *)
Definition on_exception (e : exn) (tree : dict value) : result value :=
  match e with
  | PermissionError => Ok (VDict (dict_set tree access_denied VNone))
  | _ => Raise e
  end.

Fixpoint build_tree (fuel : nat) (directory : string) (show_hidden : bool)
    (max_depth : option Z) (current_depth : Z) : option (result value) :=
  match fuel with
  | O => None
  | S fuel' =>
      if depth_limit_reached max_depth current_depth then
        Some (Ok (VStr depth_message))
      else
        match os_listdir fs directory with
        | Raise e => Some (on_exception e [])
        | Ok names =>
            match build_items
                    (fun p => build_tree fuel' p show_hidden max_depth (current_depth + 1))
                    directory show_hidden (sorted names) [] with
            | None => None
            | Some (tree, None) => Some (Ok (VDict tree))
            | Some (tree, Some e) => Some (on_exception e tree)
            end
        end
  end.
End Builder.

(** ** [display_tree] *)

Definition branch_mid : string := "├── ".
Definition branch_last : string := "└── ".
Definition column_mid : string := "│   ".
Definition column_blank : string := "    ".

(** The [for i, (name, content) in enumerate(tree.items())] loop of
    [display_tree]; [display] is the recursive call, [n] is [len(tree)]
    and [i] the index of the next entry.  The result is the lines printed,
    in order. *)
Definition display_items (display : value -> string -> list string)
    (prefix : string) (n : Z) : Z -> list (string * value) -> list string :=
  fix loop (i : Z) (its : list (string * value)) : list string :=
    match its with
    | [] => []
    | (name, content) :: rest =>
        let symbol := if (i <? n - 1)%Z then branch_mid else branch_last in
        (prefix ++ symbol ++ name)%string
          :: (match content with
              | VDict _ =>
                  let new_prefix :=
                    (prefix ++ (if (i <? n - 1)%Z then column_mid else column_blank))%string in
                  display content new_prefix
              | VStr s => [(prefix ++ "    " ++ s)%string]
              | VNone => []
              end)
          ++ loop (i + 1)%Z rest
    end.

(** The last two cases are [print(prefix + str(tree))]. *)
Fixpoint display_tree (tree : value) (prefix : string) : list string :=
  match tree with
  | VDict items =>
      display_items display_tree prefix (Z.of_nat (List.length items)) 0 items
  | VStr s => [(prefix ++ s)%string]
  | VNone => [(prefix ++ "None")%string]
  end.

(** ** The pydot graph *)

Inductive shape : Type := box | ellipse.

Record node : Type := Node {
  node_id : string;
  node_label : string;
  node_shape : shape
}.

Record graph : Type := Graph {
  nodes : list node;
  edges : list (string * string)
}.

Definition add_node (g : graph) (n : node) : graph :=
  Graph (nodes g ++ [n]) (edges g).

Definition add_edge (g : graph) (src dst : string) : graph :=
  Graph (nodes g) (edges g ++ [(src, dst)]).

(** The [for name, child in tree.items()] loop of
    [add_nodes_edges_from_tree]; [recur] is the recursive call. *)
Definition add_items (recur : value -> string -> graph -> result graph)
    (parent_id : string) : list (string * value) -> graph -> result graph :=
  fix loop (its : list (string * value)) (g : graph) : result graph :=
    match its with
    | [] => Ok g
    | (name, child) :: rest =>
        let child_id := (parent_id ++ "/" ++ name)%string in
        let g := add_node g (Node child_id name box) in
        let g := add_edge g parent_id child_id in
        match child with
        | VDict _ =>
            match recur child child_id g with
            | Ok g' => loop rest g'
            | Raise e => Raise e
            end
        | VStr s =>
            let leaf_id := (child_id ++ "_leaf")%string in
            let g := add_node g (Node leaf_id s ellipse) in
            let g := add_edge g child_id leaf_id in
            loop rest g
        | VNone => loop rest g
        end
    end.

(** [tree.items()] exists on a [dict] only: on a [str] or on [None] the
    call raises [AttributeError]. *)
Fixpoint add_nodes_edges_from_tree (tree : value) (parent_id : string)
    (g : graph) : result graph :=
  match tree with
  | VDict items => add_items add_nodes_edges_from_tree parent_id items g
  | _ => Raise AttributeError
  end.

(** The graph handed to [write_png]. *)
Definition generate_tree_image (tree : value) (root_label : string) : result graph :=
  let root_id := root_label in
  let g := add_node (Graph [] []) (Node root_id root_label box) in
  add_nodes_edges_from_tree tree root_id g.


(** ** [json.dump(tree, f, indent=4, ensure_ascii=False)] *)

Definition dquote : ascii := "034"%char.
Definition backslash : ascii := "092"%char.
Definition newline : ascii := "010"%char.

Definition hex_digit (n : N) : ascii :=
  ascii_of_N (if (n <? 10)%N then 48 + n else 87 + n).

(** The encoder's table of escapes: the quote, the backslash and the
    control characters; with [ensure_ascii=False] every other character is
    written as it is. *)
Definition escape_char (c : ascii) : string :=
  let n := N_of_ascii c in
  if (n =? 34)%N then String backslash (String dquote "")
  else if (n =? 92)%N then String backslash (String backslash "")
  else if (n =? 8)%N then String backslash "b"
  else if (n =? 12)%N then String backslash "f"
  else if (n =? 10)%N then String backslash "n"
  else if (n =? 13)%N then String backslash "r"
  else if (n =? 9)%N then String backslash "t"
  else if (n <? 32)%N then
    String backslash
      (String "u" (String "0" (String "0"
        (String (hex_digit (n / 16)) (String (hex_digit (n mod 16)) "")))))
  else String c "".

Fixpoint escape (s : string) : string :=
  match s with
  | EmptyString => EmptyString
  | String c s' => (escape_char c ++ escape s')%string
  end.

Definition encode_basestring (s : string) : string :=
  String dquote (escape s ++ String dquote "")%string.

Fixpoint spaces (n : nat) : string :=
  match n with
  | O => EmptyString
  | S n' => String " " (spaces n')
  end.

(** A line break followed by the indentation of nesting level [level]. *)
Definition newline_indent (level : nat) : string :=
  String newline (spaces (4 * level)).

(** The entries of a non-empty dictionary, each on a line of its own;
    [encode] is the recursive call and [first] tells the first entry,
    which has no separator before it. *)
Definition encode_items (encode : value -> nat -> string) (level : nat)
    : bool -> list (string * value) -> string :=
  fix loop (first : bool) (its : list (string * value)) : string :=
    match its with
    | [] => EmptyString
    | (k, x) :: rest =>
        ((if first then EmptyString else String "," (newline_indent (S level)))
         ++ encode_basestring k ++ ": " ++ encode x (S level)
         ++ loop false rest)%string
    end.

Fixpoint json_encode (v : value) (level : nat) : string :=
  match v with
  | VNone => "null"
  | VStr s => encode_basestring s
  | VDict [] => "{}"
  | VDict items =>
      ("{" ++ newline_indent (S level)
        ++ encode_items json_encode level true items
        ++ newline_indent level ++ "}")%string
  end.

Definition json_dumps (v : value) : string := json_encode v 0.

(** ** Reading the document back

    A reader for the JSON text that [json.dump] writes here (objects,
    strings and [null]), after the decoder of Python's [json] module:
    [scan_string] is its [scanstring] in strict mode, [parse_members] its
    [JSONObject], [parse_value] its [scan_once] and [json_loads] its
    [decode]. *)

Definition is_whitespace (c : ascii) : bool :=
  let n := N_of_ascii c in
  orb (orb (n =? 32)%N (n =? 9)%N) (orb (n =? 10)%N (n =? 13)%N).

Fixpoint skip_ws (s : string) : string :=
  match s with
  | String c s' => if is_whitespace c then skip_ws s' else s
  | EmptyString => EmptyString
  end.

Definition hex_value (c : ascii) : option N :=
  let n := N_of_ascii c in
  if andb (48 <=? n)%N (n <=? 57)%N then Some (n - 48)%N
  else if andb (97 <=? n)%N (n <=? 102)%N then Some (n - 87)%N
  else if andb (65 <=? n)%N (n <=? 70)%N then Some (n - 55)%N
  else None.

(** The bytes of the character with number [n], below the surrogates
    or between them and [0xFFFF]; names are kept as their UTF-8 bytes. *)
Definition utf8_encode (n : N) : option string :=
  if (n <? 128)%N then Some (String (ascii_of_N n) "")
  else if (n <? 2048)%N then
    Some (String (ascii_of_N (192 + n / 64)) (String (ascii_of_N (128 + n mod 64)) ""))
  else if andb (55296 <=? n)%N (n <=? 57343)%N then None
  else
    Some (String (ascii_of_N (224 + n / 4096))
            (String (ascii_of_N (128 + (n / 64) mod 64))
               (String (ascii_of_N (128 + n mod 64)) ""))).

Definition unescape (e : ascii) : option ascii :=
  let n := N_of_ascii e in
  if (n =? 34)%N then Some dquote
  else if (n =? 92)%N then Some backslash
  else if (n =? 47)%N then Some "/"%char
  else if (n =? 98)%N then Some (ascii_of_N 8)
  else if (n =? 102)%N then Some (ascii_of_N 12)
  else if (n =? 110)%N then Some (ascii_of_N 10)
  else if (n =? 114)%N then Some (ascii_of_N 13)
  else if (n =? 116)%N then Some (ascii_of_N 9)
  else None.

(** The text after an opening quote: the string it holds and what
    follows the closing quote. *)
Fixpoint scan_string (s : string) : option (string * string) :=
  match s with
  | EmptyString => None
  | String c s' =>
      if Ascii.eqb c dquote then Some (EmptyString, s')
      else if Ascii.eqb c backslash then
        match s' with
        | String e s'' =>
            if Ascii.eqb e "u" then
              match s'' with
              | String h1 (String h2 (String h3 (String h4 s3))) =>
                  match hex_value h1, hex_value h2, hex_value h3, hex_value h4 with
                  | Some a, Some b, Some c', Some d =>
                      match utf8_encode (((a * 16 + b) * 16 + c') * 16 + d),
                            scan_string s3 with
                      | Some bytes, Some (str, r) => Some ((bytes ++ str)%string, r)
                      | _, _ => None
                      end
                  | _, _, _, _ => None
                  end
              | _ => None
              end
            else
              match unescape e, scan_string s'' with
              | Some x, Some (str, r) => Some (String x str, r)
              | _, _ => None
              end
        | EmptyString => None
        end
      else if (N_of_ascii c <? 32)%N then None
      else
        match scan_string s' with
        | Some (str, r) => Some (String c str, r)
        | None => None
        end
  end.

(** What follows [p] in [s], when [s] starts with [p]. *)
Fixpoint drop_prefix (p s : string) : option string :=
  match p, s with
  | EmptyString, _ => Some s
  | String a p', String b s' => if Ascii.eqb a b then drop_prefix p' s' else None
  | String _ _, EmptyString => None
  end.

(** [parse_value] reads one value; [parse_members] reads the entries of
    an object from just after the opening quote of a key, adding them to
    [acc] as [dict(pairs)] does.  [fuel] bounds the number of calls. *)
Fixpoint parse_value (fuel : nat) (s : string) : option (value * string) :=
  match fuel with
  | O => None
  | S fuel' =>
      match s with
      | EmptyString => None
      | String c s' =>
          if Ascii.eqb c dquote then
            match scan_string s' with
            | Some (str, r) => Some (VStr str, r)
            | None => None
            end
          else if Ascii.eqb c "{" then
            match skip_ws s' with
            | String c1 s1 =>
                if Ascii.eqb c1 "}" then Some (VDict [], s1)
                else if Ascii.eqb c1 dquote then parse_members fuel' s1 []
                else None
            | EmptyString => None
            end
          else
            match drop_prefix "null" s with
            | Some r => Some (VNone, r)
            | None => None
            end
      end
  end
with parse_members (fuel : nat) (s : string) (acc : dict value)
    : option (value * string) :=
  match fuel with
  | O => None
  | S fuel' =>
      match scan_string s with
      | None => None
      | Some (key, r) =>
          match skip_ws r with
          | String c r1 =>
              if Ascii.eqb c ":" then
                match parse_value fuel' (skip_ws r1) with
                | None => None
                | Some (x, r2) =>
                    let acc' := dict_set acc key x in
                    match skip_ws r2 with
                    | String c2 r3 =>
                        if Ascii.eqb c2 "}" then Some (VDict acc', r3)
                        else if Ascii.eqb c2 "," then
                          match skip_ws r3 with
                          | String c3 r4 =>
                              if Ascii.eqb c3 dquote then parse_members fuel' r4 acc'
                              else None
                          | EmptyString => None
                          end
                        else None
                    | EmptyString => None
                    end
                end
              else None
          | EmptyString => None
          end
      end
  end.

(** The whole text is one value, with white space around it at most. *)
Definition json_loads (s : string) : option value :=
  match parse_value (S (String.length s)) (skip_ws s) with
  | Some (v, r) =>
      match skip_ws r with
      | EmptyString => Some v
      | String _ _ => None
      end
  | None => None
  end.

(** ** The program *)

Record arguments : Type := {
  arg_directory : string;
  arg_show_hidden : bool;
  arg_max_depth : option Z
}.

Inductive file_content : Type :=
| JsonText (text : string)
| PngOf (g : graph).

(** How the process ends: [exit(code)] or falling off the end of the
    script ([Exit 0]), or an exception nobody caught. *)
Inductive status : Type :=
| Exit (code : Z)
| Traceback (e : exn).

(** The interpreter turns an uncaught exception into exit status 1. *)
Definition exit_code (s : status) : Z :=
  match s with
  | Exit c => c
  | Traceback _ => 1%Z
  end.

Record run : Type := {
  stdout : list string;
  written : list (string * file_content);
  exit_status : status
}.

Definition main (fs : filesystem) (fuel : nat) (args : arguments) : option run :=
  let directory_to_explore := os_path_abspath fs (arg_directory args) in
  if negb (os_path_exists fs directory_to_explore) then
    Some {| stdout := [("❌ Error: The directory '" ++ directory_to_explore
                          ++ "' does not exist.")%string];
            written := [];
            exit_status := Exit 1 |}
  else
    match build_tree fs fuel directory_to_explore
            (arg_show_hidden args) (arg_max_depth args) 0 with
    | None => None
    | Some (Raise e) =>
        Some {| stdout := []; written := []; exit_status := Traceback e |}
    | Some (Ok tree) =>
        let out :=
          [String newline ("📁 Directory Tree: " ++ directory_to_explore
                             ++ String newline "")%string]
            ++ display_tree tree "" in
        let json_filename := os_path_join directory_to_explore "directory_tree.json" in
        let files := [(json_filename, JsonText (json_dumps tree))] in
        let out :=
          out ++ [String newline ("📄 The directory tree has been saved as '"
                                    ++ json_filename ++ "'")%string] in
        let root_label :=
          if String.eqb (os_path_basename directory_to_explore) ""
          then directory_to_explore
          else os_path_basename directory_to_explore in
        let png_filename := os_path_join directory_to_explore "directory_tree.png" in
        match generate_tree_image tree root_label with
        | Raise e =>
            Some {| stdout := out; written := files; exit_status := Traceback e |}
        | Ok g =>
            Some {| stdout :=
                      out ++ [String newline ("🖼️ The tree image has been saved as '"
                                                ++ png_filename ++ "'")%string];
                    written := files ++ [(png_filename, PngOf g)];
                    exit_status := Exit 0 |}
        end
    end.

(** ** Notions used to state the properties *)

(** Byte-wise lexicographic order, as [str] comparison has it. *)
Definition str_le (a b : string) : Prop := String.leb a b = true.
Definition str_lt (a b : string) : Prop := String.ltb a b = true.

(** An entry takes part in the walk unless it is hidden and hidden
    entries are not shown. *)
Definition visible (show_hidden : bool) (item : string) : bool :=
  negb (andb (negb show_hidden) (startswith item ".")).

(** The value found by following the keys of [p] from [v]. *)
Fixpoint val_at (v : value) (p : list string) : option value :=
  match p with
  | [] => Some v
  | k :: p' =>
      match v with
      | VDict items =>
          match dict_get items k with
          | Some c => val_at c p'
          | None => None
          end
      | _ => None
      end
  end.

(** Every key of every dictionary of [v]: the names of its nodes. *)
Fixpoint node_names (v : value) : list string :=
  match v with
  | VDict items => flat_map (fun kv => fst kv :: node_names (snd kv)) items
  | _ => []
  end.

(** [x] occurs in [v]: it is [v] or occurs in a value of [v]. *)
Inductive occurs_in (x : value) : value -> Prop :=
| occurs_here : occurs_in x x
| occurs_below (items : list (string * value)) (k : string) (c : value) :
    In (k, c) items -> occurs_in x c -> occurs_in x (VDict items).

(** The path [directory/n1/.../nk]. *)
Definition path_from (directory : string) (p : list string) : string :=
  fold_left os_path_join p directory.

(** [p] is a chain of directories that the walk from [directory] goes
    down: each name is listed in its parent, is not skipped, and is a
    directory. *)
Fixpoint subdir_chain (fs : filesystem) (show_hidden : bool)
    (directory : string) (p : list string) : Prop :=
  match p with
  | [] => True
  | n :: p' =>
      (exists names, os_listdir fs directory = Ok names /\ In n names)
      /\ visible show_hidden n = true
      /\ os_path_isdir fs (os_path_join directory n) = true
      /\ subdir_chain fs show_hidden (os_path_join directory n) p'
  end.

(** The number of calls the reader needs for [v]. *)
Fixpoint value_size (v : value) : nat :=
  match v with
  | VDict items => S (list_sum (map (fun kv => S (value_size (snd kv))) items))
  | _ => 1
  end.

Definition items_size (items : list (string * value)) : nat :=
  list_sum (map (fun kv => S (value_size (snd kv))) items).

(** No dictionary of [v] has a key twice, as in every Python [dict]. *)
Definition unique_keys (v : value) : Prop :=
  forall items, occurs_in (VDict items) v -> NoDup (keys items).

(** The drawing of the children of a directory as the specification
    words it, to be compared with [display_tree]: every child is a line
    with a branch glyph, the terminal one for the last child and the
    continuation one for the others; under a child that is a directory
    come its own children, behind a continuation column or blank padding;
    under a child whose value is a string comes that string, behind four
    blanks and without a glyph. *)
Fixpoint render_children (prefix : string) (its : list (string * value))
    : list string :=
  match its with
  | [] => []
  | (name, content) :: rest =>
      let is_last := match rest with [] => true | _ :: _ => false end in
      (prefix ++ (if is_last then branch_last else branch_mid) ++ name)%string
        :: (match content with
            | VDict _ =>
                display_tree content
                  (prefix ++ (if is_last then column_blank else column_mid))%string
            | VStr s => [(prefix ++ "    " ++ s)%string]
            | VNone => []
            end)
        ++ render_children prefix rest
  end.

(** There are fewer than [n] levels of directories from [directory]
    down: no chain of listed directories has [n] names. *)
Fixpoint levels_below (fs : filesystem) (directory : string) (n : nat) : Prop :=
  match n with
  | O => False
  | S n' =>
      forall names item,
        os_listdir fs directory = Ok names -> In item names ->
        os_path_isdir fs (os_path_join directory item) = true ->
        levels_below fs (os_path_join directory item) n'
  end.

(** The identifier [add_nodes_edges_from_tree] gives the node at [p]. *)
Definition node_id_at (root_id : string) (p : list string) : string :=
  fold_left (fun id name => (id ++ "/" ++ name)%string) p root_id.

(** The graph [g] holds the entry at [p], whose value is [x]: a box
    node labelled with the name, an edge from the node of its parent,
    and, when [x] is a string, an ellipse labelled with that string, whose
    identifier is that of the entry followed by ["_leaf"], with an edge
    from the node of the entry. *)
Definition emitted (root_id : string) (p : list string) (x : value)
    (g : graph) : Prop :=
  In (Node (node_id_at root_id p) (last p "") box) (nodes g)
  /\ In (node_id_at root_id (removelast p), node_id_at root_id p) (edges g)
  /\ forall s, x = VStr s ->
       In (Node (node_id_at root_id p ++ "_leaf") s ellipse) (nodes g)
       /\ In (node_id_at root_id p, (node_id_at root_id p ++ "_leaf")%string) (edges g).

(** What the loop of [build_tree] stores under the name [k]: [None] for
    an entry that is not a directory, and what the recursive call returns
    for one that is. *)
Definition entry_of (fs : filesystem) (recur : string -> option (result value))
    (directory : string) (show_hidden : bool)
    (names : list string) (k : string) (v : value) : Prop :=
  In k names /\ visible show_hidden k = true /\
  ((os_path_isdir fs (os_path_join directory k) = false /\ v = VNone) \/
   (os_path_isdir fs (os_path_join directory k) = true /\
    recur (os_path_join directory k) = Some (Ok v))).

(** What a directory that was listed looks like in the result: its keys
    are in strictly ascending order, they are the entries that are not
    skipped, a directory among them holds a value with property [Q] and
    any other entry holds [None]. *)
Definition listed_directory (fs : filesystem) (show_hidden : bool)
    (Q : string -> Z -> value -> Prop)
    (directory : string) (current_depth : Z) (names : list string)
    (t : dict value) : Prop :=
  StronglySorted str_lt (keys t)
  /\ (forall k, In k names -> visible show_hidden k = true -> In k (keys t))
  /\ (forall k v, In (k, v) t ->
        In k names /\ visible show_hidden k = true /\
        ((os_path_isdir fs (os_path_join directory k) = false /\ v = VNone) \/
         (os_path_isdir fs (os_path_join directory k) = true /\
          Q (os_path_join directory k) (current_depth + 1)%Z v))).

(** Every node and edge of [g] is in [g']. *)
Definition graph_le (g g' : graph) : Prop :=
  incl (nodes g) (nodes g') /\ incl (edges g) (edges g').

(** What [add_nodes_edges_from_tree] on [v] guarantees. *)
Definition emits (v : value) : Prop :=
  forall parent_id g g',
    add_nodes_edges_from_tree v parent_id g = Ok g' ->
    graph_le g g'
    /\ forall p x, p <> [] -> val_at v p = Some x -> emitted parent_id p x g'.

(** One entry of a dictionary: the key, a colon and the document of the
    value, one level further in. *)
Definition json_entry (level : nat) (kv : string * value) : string :=
  (encode_basestring (fst kv) ++ ": " ++ json_encode (snd kv) (S level))%string.

(** The text of the entries after the first, up to the end of the object,
    and what follows the object. *)
Definition members_tail (level : nat) (its : list (string * value))
    (rest : string) : string :=
  (encode_items json_encode level false its
   ++ newline_indent level ++ String "}" rest)%string.

Definition reads_back (v : value) : Prop :=
  forall level rest fuel,
    unique_keys v -> (value_size v <= fuel)%nat ->
    parse_value fuel (json_encode v level ++ rest) = Some (v, rest).

(** [v] without the entries whose name starts with a dot, at every
    depth. *)
Fixpoint prune_hidden (v : value) : value :=
  match v with
  | VDict items =>
      VDict (flat_map
               (fun kv =>
                  if startswith (fst kv) "." then []
                  else [(fst kv, prune_hidden (snd kv))])
               items)
  | _ => v
  end.

Definition prune_items (items : dict value) : dict value :=
  flat_map
    (fun kv =>
       if startswith (fst kv) "." then [] else [(fst kv, prune_hidden (snd kv))])
    items.

(** [v], the value of a directory at depth [c], with every dictionary at
    depth [k] or more replaced by the depth-limit message. *)
Fixpoint cut_at_depth (k c : Z) (v : value) : value :=
  match v with
  | VDict items =>
      if (c >=? k)%Z then VStr depth_message
      else VDict (map (fun kv => (fst kv, cut_at_depth k (c + 1) (snd kv))) items)
  | _ => v
  end.

(** The string values of [v], at every depth. *)
Fixpoint string_values (v : value) : list string :=
  match v with
  | VDict items =>
      flat_map
        (fun kv =>
           match snd kv with
           | VStr s => [s]
           | _ => string_values (snd kv)
           end)
        items
  | _ => []
  end.

(** What a call of [add_nodes_edges_from_tree] on [v] adds to a graph:
    the nodes [ns] and the edges [es], in the order of the calls. *)
Definition added (v : value) (parent_id : string) (g g' : graph)
    (ns : list node) (es : list (string * string)) : Prop :=
  nodes g' = nodes g ++ ns
  /\ edges g' = edges g ++ es
  /\ map snd es = map node_id ns
  /\ (forall e, In e es -> fst e = parent_id \/ In (fst e) (map node_id ns))
  /\ List.length ns
     = (List.length (node_names v) + List.length (string_values v))%nat.

Definition is_box (n : node) : bool :=
  match node_shape n with box => true | ellipse => false end.

Definition is_ellipse (n : node) : bool :=
  match node_shape n with box => false | ellipse => true end.

(** Two file systems that differ at most in the order in which
    [os.listdir] reports the entries of a directory. *)
Definition same_listing (a b : result (list string)) : Prop :=
  match a, b with
  | Ok l, Ok l' => Permutation l l'
  | Raise e, Raise e' => e = e'
  | _, _ => False
  end.

Record same_directories (fs1 fs2 : filesystem) : Prop := {
  same_listdir : forall p, same_listing (os_listdir fs1 p) (os_listdir fs2 p);
  same_isdir : forall p, os_path_isdir fs1 p = os_path_isdir fs2 p;
  same_exists : forall p, os_path_exists fs1 p = os_path_exists fs2 p;
  same_abspath : forall p, os_path_abspath fs1 p = os_path_abspath fs2 p
}.

(** ** A small file system for examples

    [/r] holds [a.txt], [B], the hidden [.git] and the directory [sub];
    [/r/sub] holds [b.txt], the empty directory [e] and the directory
    [deep], which cannot be listed.  [/locked] cannot be listed.  [/w]
    holds the empty directory [x] and the directory [gone], which is
    removed before the walk gets to it. *)
Definition demo_listdir (p : string) : result (list string) :=
  if String.eqb p "/r" then Ok ["sub"; "a.txt"; ".git"; "B"]
  else if String.eqb p "/r/sub" then Ok ["e"; "deep"; "b.txt"]
  else if String.eqb p "/r/sub/deep" then Raise PermissionError
  else if String.eqb p "/r/sub/e" then Ok []
  else if String.eqb p "/r/.git" then Ok ["HEAD"]
  else if String.eqb p "/locked" then Raise PermissionError
  else if String.eqb p "/w" then Ok ["x"; "gone"]
  else if String.eqb p "/w/x" then Ok []
  else if String.eqb p "/w/gone" then Raise FileNotFoundError
  else Raise NotADirectoryError.

Definition demo_isdir (p : string) : bool :=
  existsb (String.eqb p)
    ["/r"; "/r/sub"; "/r/sub/deep"; "/r/sub/e"; "/r/.git"; "/locked";
     "/w"; "/w/x"; "/w/gone"].

Definition demo_fs : filesystem := {|
  os_listdir := demo_listdir;
  os_path_isdir := demo_isdir;
  os_path_exists := fun p =>
    orb (demo_isdir p)
      (existsb (String.eqb p)
         ["/r/a.txt"; "/r/B"; "/r/sub/b.txt"; "/r/.git/HEAD"]);
  os_path_abspath := fun p => p
|}.

(** [/c] holds the directory [x] and the file [x_leaf]. *)
Definition clash_fs : filesystem := {|
  os_listdir := fun p =>
    if String.eqb p "/c" then Ok ["x_leaf"; "x"]
    else if String.eqb p "/c/x" then Ok ["y"]
    else Raise NotADirectoryError;
  os_path_isdir := fun p => orb (String.eqb p "/c") (String.eqb p "/c/x");
  os_path_exists := fun p =>
    existsb (String.eqb p) ["/c"; "/c/x"; "/c/x_leaf"; "/c/x/y"];
  os_path_abspath := fun p => p
|}.

(** The same directories, listed in another order. *)
Definition demo_fs' : filesystem := {|
  os_listdir := fun p =>
    match demo_listdir p with
    | Ok l => Ok (rev l)
    | Raise e => Raise e
    end;
  os_path_isdir := os_path_isdir demo_fs;
  os_path_exists := os_path_exists demo_fs;
  os_path_abspath := os_path_abspath demo_fs
|}.

(** * Properties *)

(** Induction on a value, with the hypothesis for the values of a
    dictionary. *)
Lemma value_nested_ind (P : value -> Prop) :
  P VNone ->
  (forall s, P (VStr s)) ->
  (forall items, Forall (fun kv => P (snd kv)) items -> P (VDict items)) ->
  forall v, P v.
Proof.
  intros HN HS HD. fix IH 1. intros [|s|items]; [exact HN | exact (HS s) |].
  apply HD. induction items as [|[k x] items IHi]; constructor.
  - exact (IH x).
  - exact IHi.
Qed.

(** ** The order on names *)

Lemma string_compare_refl (a : string) : (a ?= a)%string = Eq.
Proof.
  induction a as [|x a IH]; simpl; [reflexivity|].
  unfold Ascii.compare. rewrite N.compare_refl. exact IH.
Qed.

Lemma string_compare_lt_trans (a b c : string) :
  (a ?= b)%string = Lt -> (b ?= c)%string = Lt -> (a ?= c)%string = Lt.
Proof.
  revert b c.
  induction a as [|x a IH]; intros [|y b] [|z c]; simpl; try congruence.
  destruct (Ascii.compare x y) eqn:Exy; try discriminate;
    destruct (Ascii.compare y z) eqn:Eyz; try discriminate; intros H1 H2.
  - apply Ascii.compare_eq_iff in Exy. subst y. rewrite Eyz. eauto.
  - apply Ascii.compare_eq_iff in Exy. subst y. rewrite Eyz. reflexivity.
  - apply Ascii.compare_eq_iff in Eyz. subst z. rewrite Exy. reflexivity.
  - unfold Ascii.compare in *. rewrite N.compare_lt_iff in Exy, Eyz.
    assert (E : N.compare (N_of_ascii x) (N_of_ascii z) = Lt)
      by (apply N.compare_lt_iff; lia).
    rewrite E. reflexivity.
Qed.

Lemma str_le_iff (a b : string) : str_le a b <-> a = b \/ str_lt a b.
Proof.
  unfold str_le, str_lt, String.leb, String.ltb.
  destruct (a ?= b)%string eqn:E; split; intros H; auto; try discriminate.
  - left. now apply String.compare_eq_iff.
  - destruct H as [->|H]; [|discriminate].
    rewrite string_compare_refl in E. discriminate.
Qed.

Lemma str_lt_irrefl (a : string) : ~ str_lt a a.
Proof. unfold str_lt, String.ltb. now rewrite string_compare_refl. Qed.

Lemma str_lt_trans (a b c : string) : str_lt a b -> str_lt b c -> str_lt a c.
Proof.
  unfold str_lt, String.ltb. intros H1 H2.
  destruct (a ?= b)%string eqn:E1; try discriminate.
  destruct (b ?= c)%string eqn:E2; try discriminate.
  now rewrite (string_compare_lt_trans _ _ _ E1 E2).
Qed.

Lemma str_le_trans (a b c : string) : str_le a b -> str_le b c -> str_le a c.
Proof.
  rewrite !str_le_iff. intros [->|H1] [->|H2]; auto.
  right. eapply str_lt_trans; eauto.
Qed.

Lemma str_le_lt_trans (a b c : string) : str_le a b -> str_lt b c -> str_lt a c.
Proof.
  rewrite str_le_iff. intros [->|H1] H2; auto. eapply str_lt_trans; eauto.
Qed.

Lemma str_le_antisym (a b : string) : str_le a b -> str_le b a -> a = b.
Proof. apply String.leb_antisym. Qed.

(** ** [sorted] *)

Lemma sorted_StronglySorted (l : list string) : StronglySorted str_le (sorted l).
Proof.
  apply StringSort.StronglySorted_sort.
  intros a b c. apply str_le_trans.
Qed.

Lemma sorted_Permutation (l : list string) : Permutation l (sorted l).
Proof. apply StringSort.Permuted_sort. Qed.

Lemma sorted_In (l : list string) (x : string) : In x (sorted l) <-> In x l.
Proof.
  split; apply Permutation_in;
    [apply Permutation_sym|]; apply sorted_Permutation.
Qed.

Lemma StronglySorted_le_unique (l l' : list string) :
  Permutation l l' -> StronglySorted str_le l -> StronglySorted str_le l' -> l = l'.
Proof.
  revert l'. induction l as [|a l IH]; intros l' HP Hs Hs'.
  - now apply Permutation_nil in HP.
  - destruct l' as [|b l'].
    + apply Permutation_sym, Permutation_nil in HP. discriminate.
    + apply StronglySorted_inv in Hs as [Hs Ha].
      apply StronglySorted_inv in Hs' as [Hs' Hb].
      rewrite Forall_forall in Ha, Hb.
      assert (a = b) as ->.
      { assert (Hab : In a (b :: l'))
          by (eapply Permutation_in; [exact HP | now left]).
        assert (Hba : In b (a :: l))
          by (eapply Permutation_in; [apply Permutation_sym; exact HP | now left]).
        destruct Hab as [->|Hab]; [reflexivity|].
        destruct Hba as [->|Hba]; [reflexivity|].
        apply str_le_antisym; auto. }
      f_equal. apply IH; auto. now apply Permutation_cons_inv in HP.
Qed.

(** The order in which [os.listdir] reports the names does not matter. *)
Lemma sorted_Permutation_eq (l l' : list string) :
  Permutation l l' -> sorted l = sorted l'.
Proof.
  intros HP. apply StronglySorted_le_unique; try apply sorted_StronglySorted.
  eapply Permutation_trans; [apply Permutation_sym, sorted_Permutation|].
  eapply Permutation_trans; [exact HP | apply sorted_Permutation].
Qed.

(** ** Dictionaries *)

Section Dict.
Context {V : Type}.
Implicit Types (d : dict V) (k : string) (v : V).

Lemma In_keys d k v : In (k, v) d -> In k (keys d).
Proof. intros H. apply (in_map fst) in H. exact H. Qed.

Lemma keys_In d k : In k (keys d) -> exists v, In (k, v) d.
Proof.
  unfold keys. rewrite in_map_iff. intros [[k' v] [E H]].
  simpl in E. subst k'. eauto.
Qed.

Lemma In_dict_set d k v k' v' :
  In (k', v') (dict_set d k v) -> In (k', v') d \/ (k' = k /\ v' = v).
Proof.
  induction d as [|[k0 v0] d IH]; simpl.
  - intros [H|[]]. inversion H. auto.
  - destruct (String.eqb_spec k0 k) as [->|Hne]; intros [H|H].
    + inversion H. auto.
    + auto.
    + auto.
    + destruct (IH H); auto.
Qed.

Lemma dict_set_In_new d k v : In (k, v) (dict_set d k v).
Proof.
  induction d as [|[k0 v0] d IH]; simpl; auto.
  destruct (String.eqb_spec k0 k) as [->|Hne]; simpl; auto.
Qed.

Lemma keys_dict_set_in d k v : In k (keys d) -> keys (dict_set d k v) = keys d.
Proof.
  induction d as [|[k0 v0] d IH]; simpl; [tauto|].
  destruct (String.eqb_spec k0 k) as [->|Hne]; simpl; [reflexivity|].
  intros [H|H]; [congruence|]. f_equal. auto.
Qed.

Lemma keys_dict_set_notin d k v :
  ~ In k (keys d) -> keys (dict_set d k v) = keys d ++ [k].
Proof.
  induction d as [|[k0 v0] d IH]; simpl; [reflexivity|].
  destruct (String.eqb_spec k0 k) as [->|Hne]; simpl; [tauto|].
  intros H. f_equal. auto.
Qed.

Lemma keys_dict_set_incl d k v k' : In k' (keys d) -> In k' (keys (dict_set d k v)).
Proof.
  intros H. destruct (in_dec string_dec k (keys d)) as [Hin|Hnin].
  - now rewrite keys_dict_set_in.
  - rewrite keys_dict_set_notin by assumption. apply in_or_app. auto.
Qed.

Lemma keys_dict_set_new d k v : In k (keys (dict_set d k v)).
Proof. eapply In_keys, dict_set_In_new. Qed.

Lemma dict_get_In d k v : dict_get d k = Some v -> In (k, v) d.
Proof.
  induction d as [|[k0 v0] d IH]; simpl; [discriminate|].
  destruct (String.eqb_spec k0 k) as [->|Hne]; intros H.
  - inversion H. auto.
  - auto.
Qed.

Lemma In_dict_get d k v : NoDup (keys d) -> In (k, v) d -> dict_get d k = Some v.
Proof.
  induction d as [|[k0 v0] d IH]; simpl; [tauto|].
  intros Hnd [H|H]; inversion Hnd as [|? ? Hnot Hnd']; subst.
  - inversion H. subst. now rewrite String.eqb_refl.
  - destruct (String.eqb_spec k0 k) as [->|Hne]; auto.
    exfalso. apply Hnot. eapply In_keys, H.
Qed.
End Dict.

Lemma StronglySorted_lt_NoDup (l : list string) : StronglySorted str_lt l -> NoDup l.
Proof.
  induction 1 as [|a l Hs IH Ha]; constructor; auto.
  intros Hin. rewrite Forall_forall in Ha. exact (str_lt_irrefl a (Ha a Hin)).
Qed.

Lemma StronglySorted_lt_snoc (l : list string) (x : string) :
  StronglySorted str_lt l -> (forall y, In y l -> str_lt y x) ->
  StronglySorted str_lt (l ++ [x]).
Proof.
  induction 1 as [|a l Hs IH Ha]; intros Hx; simpl.
  - repeat constructor.
  - constructor.
    + apply IH. intros y Hy. apply Hx. now right.
    + apply Forall_app. split; [assumption|].
      constructor; [|constructor]. apply Hx. now left.
Qed.

(** ** The loop of [build_tree] *)

Section Loop.
Variable fs : filesystem.
Variable recur : string -> option (result value).
Variables (directory : string) (show_hidden : bool).

Lemma entry_of_cons names i k v :
  entry_of fs recur directory show_hidden names k v ->
  entry_of fs recur directory show_hidden (i :: names) k v.
Proof. unfold entry_of. simpl. tauto. Qed.

(** One step of the loop: the empty list, a skipped entry, a directory
    whose walk returned, a directory whose walk raised, another entry. *)
Ltac loop_step items IH :=
  induction items as [|item rest IH]; intros t0 t oe; simpl;
  [ | destruct (andb (negb show_hidden) (startswith item ".")) eqn:Ehid;
      [ | destruct (os_path_isdir fs (os_path_join directory item)) eqn:Edir;
          [ destruct (recur (os_path_join directory item)) as [[sub|e']|] eqn:Erec
          | ] ] ];
  intros H; try discriminate H.

Lemma visible_step item :
  andb (negb show_hidden) (startswith item ".") = false ->
  visible show_hidden item = true.
Proof. unfold visible. now intros ->. Qed.

Lemma build_items_entries items :
  forall t0 t oe,
    build_items fs recur directory show_hidden items t0 = Some (t, oe) ->
    forall k v, In (k, v) t ->
      In (k, v) t0 \/ entry_of fs recur directory show_hidden items k v.
Proof.
  loop_step items IH; intros k v Hin.
  - inversion H; subst. auto.
  - destruct (IH _ _ _ H k v Hin) as [?|?]; auto using entry_of_cons.
  - destruct (IH _ _ _ H k v Hin) as [Hs|?]; auto using entry_of_cons.
    apply In_dict_set in Hs as [?|[-> ->]]; auto.
    right. unfold entry_of. simpl. auto using visible_step.
  - inversion H; subst. auto.
  - destruct (IH _ _ _ H k v Hin) as [Hs|?]; auto using entry_of_cons.
    apply In_dict_set in Hs as [?|[-> ->]]; auto.
    right. unfold entry_of. simpl. auto using visible_step.
Qed.

Lemma build_items_keeps items :
  forall t0 t oe,
    build_items fs recur directory show_hidden items t0 = Some (t, oe) ->
    forall k, In k (keys t0) -> In k (keys t).
Proof.
  loop_step items IH; intros k Hin.
  - inversion H; subst. auto.
  - eapply IH; eauto.
  - eapply IH; eauto using keys_dict_set_incl.
  - inversion H; subst. auto.
  - eapply IH; eauto using keys_dict_set_incl.
Qed.

Lemma build_items_complete items :
  forall t0 t oe,
    build_items fs recur directory show_hidden items t0 = Some (t, oe) ->
    oe = None ->
    forall k, In k items -> visible show_hidden k = true -> In k (keys t).
Proof.
  loop_step items IH; intros Hoe k Hin Hvis; subst oe.
  - destruct Hin.
  - destruct Hin as [->|Hin]; [|eapply IH; eauto].
    unfold visible in Hvis. rewrite Ehid in Hvis. discriminate.
  - destruct Hin as [->|Hin]; [|eapply IH; eauto].
    eapply build_items_keeps; eauto using keys_dict_set_new.
  - inversion H.
  - destruct Hin as [->|Hin]; [|eapply IH; eauto].
    eapply build_items_keeps; eauto using keys_dict_set_new.
Qed.

Lemma build_items_raise items :
  forall t0 t oe,
    build_items fs recur directory show_hidden items t0 = Some (t, oe) ->
    forall e, oe = Some e ->
    exists item, In item items /\ visible show_hidden item = true /\
      os_path_isdir fs (os_path_join directory item) = true /\
      recur (os_path_join directory item) = Some (Raise e).
Proof.
  loop_step items IH; intros e Hoe; subst oe.
  - inversion H.
  - destruct (IH _ _ _ H e eq_refl) as (i & ? & ?). exists i. simpl. auto.
  - destruct (IH _ _ _ H e eq_refl) as (i & ? & ?). exists i. simpl. auto.
  - inversion H; subst.
    exists item. simpl. auto using visible_step.
  - destruct (IH _ _ _ H e eq_refl) as (i & ? & ?). exists i. simpl. auto.
Qed.

Lemma sorted_keys_set (t0 : dict value) (item : string) (v : value) :
  StronglySorted str_lt (keys t0) ->
  (forall k, In k (keys t0) -> str_le k item) ->
  StronglySorted str_lt (keys (dict_set t0 item v)).
Proof.
  intros Hs Hle. destruct (in_dec string_dec item (keys t0)) as [Hin|Hnin].
  - now rewrite keys_dict_set_in.
  - rewrite keys_dict_set_notin by assumption.
    apply StronglySorted_lt_snoc; auto.
    intros y Hy. destruct (proj1 (str_le_iff _ _) (Hle y Hy)); congruence.
Qed.

Lemma keys_set_bound (t0 : dict value) (item : string) (v : value) (rest : list string) :
  (forall k i, In k (keys t0) -> In i (item :: rest) -> str_le k i) ->
  Forall (str_le item) rest ->
  forall k i, In k (keys (dict_set t0 item v)) -> In i rest -> str_le k i.
Proof.
  intros Hb Hi k i Hk Hin. rewrite Forall_forall in Hi.
  destruct (keys_In _ _ Hk) as [v' Hkv].
  apply In_dict_set in Hkv as [Hkv|[-> _]]; auto.
  apply Hb; simpl; eauto using In_keys.
Qed.

Lemma build_items_sorted items :
  forall t0 t oe,
    build_items fs recur directory show_hidden items t0 = Some (t, oe) ->
    StronglySorted str_le items ->
    StronglySorted str_lt (keys t0) ->
    (forall k i, In k (keys t0) -> In i items -> str_le k i) ->
    StronglySorted str_lt (keys t).
Proof.
  loop_step items IH; intros Hs Ht Hb;
    try (inversion H; subst; assumption);
    apply StronglySorted_inv in Hs as [Hs Hi].
  - eapply IH; eauto; intros; apply Hb; simpl; auto.
  - eapply IH; eauto using keys_set_bound;
      apply sorted_keys_set; auto; intros; apply Hb; simpl; auto.
  - eapply IH; eauto using keys_set_bound;
      apply sorted_keys_set; auto; intros; apply Hb; simpl; auto.
Qed.
End Loop.

(** The loop depends on the recursive call and on [os.path.isdir] only
    through their values. *)
Lemma build_items_ext (fs1 fs2 : filesystem)
    (recur1 recur2 : string -> option (result value))
    (directory : string) (show_hidden : bool) (items : list string) :
  (forall p, os_path_isdir fs1 p = os_path_isdir fs2 p) ->
  (forall p, recur1 p = recur2 p) ->
  forall t0,
    build_items fs1 recur1 directory show_hidden items t0
    = build_items fs2 recur2 directory show_hidden items t0.
Proof.
  intros Hdir Hrec. induction items as [|item rest IH]; intros t0; simpl; auto.
  rewrite Hdir, Hrec, !IH.
  destruct (recur2 (os_path_join directory item)) as [[sub|e]|]; auto.
  now rewrite IH.
Qed.

(** A recursive call that returns more often lets the loop return at
    least as often, with the same result. *)
Lemma build_items_mono (fs : filesystem)
    (recur recur' : string -> option (result value))
    (directory : string) (show_hidden : bool) (items : list string) :
  (forall p r, recur p = Some r -> recur' p = Some r) ->
  forall t0 x,
    build_items fs recur directory show_hidden items t0 = Some x ->
    build_items fs recur' directory show_hidden items t0 = Some x.
Proof.
  intros Hrec. induction items as [|item rest IH]; intros t0 x; simpl; auto.
  destruct (andb (negb show_hidden) (startswith item ".")); auto.
  destruct (os_path_isdir fs (os_path_join directory item)); auto.
  destruct (recur (os_path_join directory item)) as [r|] eqn:E; [|discriminate].
  rewrite (Hrec _ _ E). destruct r; auto.
Qed.

(** The loop returns when the recursive call does on the directories
    among the items. *)
Lemma build_items_total (fs : filesystem)
    (recur : string -> option (result value))
    (directory : string) (show_hidden : bool) (items : list string) :
  (forall item, In item items ->
     os_path_isdir fs (os_path_join directory item) = true ->
     exists r, recur (os_path_join directory item) = Some r) ->
  forall t0, exists x, build_items fs recur directory show_hidden items t0 = Some x.
Proof.
  induction items as [|item rest IH]; intros Hrec t0; simpl; eauto.
  assert (Hrest : forall t, exists x,
             build_items fs recur directory show_hidden rest t = Some x).
  { apply IH. intros i Hi. apply Hrec. now right. }
  destruct (andb (negb show_hidden) (startswith item ".")); auto.
  destruct (os_path_isdir fs (os_path_join directory item)) eqn:Edir; auto.
  destruct (Hrec item (or_introl eq_refl) Edir) as [[sub|e] ->]; eauto.
Qed.

(** ** [build_tree] *)

Section BuildTree.
Variable fs : filesystem.
Variables (show_hidden : bool) (max_depth : option Z).

Lemma on_exception_Raise e t e' :
  on_exception e t = Raise e' -> e' = e /\ e <> PermissionError.
Proof. destruct e; simpl; intros H; inversion H; split; congruence. Qed.

Lemma on_exception_Ok e t v :
  on_exception e t = Ok v ->
  e = PermissionError /\ v = VDict (dict_set t access_denied VNone).
Proof. destruct e; simpl; intros H; inversion H; auto. Qed.

(** [build_tree] never lets a [PermissionError] out. *)
Lemma build_tree_no_PermissionError fuel directory current_depth :
  build_tree fs fuel directory show_hidden max_depth current_depth
  <> Some (Raise PermissionError).
Proof.
  destruct fuel as [|fuel]; simpl; [discriminate|].
  destruct (depth_limit_reached max_depth current_depth); [discriminate|].
  destruct (os_listdir fs directory) as [names|e].
  - destruct (build_items _ _ _ _ _ _) as [[t [e|]]|]; try discriminate.
    intros H. inversion H as [H']. apply on_exception_Raise in H'. intuition congruence.
  - intros H. inversion H as [H']. apply on_exception_Raise in H'. intuition congruence.
Qed.

(** The three ways in which [build_tree] returns a value. *)
Lemma build_tree_Ok_inv fuel directory current_depth v :
  build_tree fs (S fuel) directory show_hidden max_depth current_depth = Some (Ok v) ->
  (depth_limit_reached max_depth current_depth = true /\ v = VStr depth_message)
  \/ (depth_limit_reached max_depth current_depth = false /\
      os_listdir fs directory = Raise PermissionError /\
      v = VDict [(access_denied, VNone)])
  \/ (depth_limit_reached max_depth current_depth = false /\
      exists names t,
        os_listdir fs directory = Ok names /\ v = VDict t /\
        build_items fs
          (fun p => build_tree fs fuel p show_hidden max_depth (current_depth + 1))
          directory show_hidden (sorted names) [] = Some (t, None)).
Proof.
  simpl. destruct (depth_limit_reached max_depth current_depth).
  - intros H. inversion H. auto.
  - right. destruct (os_listdir fs directory) as [names|e].
    + destruct (build_items _ _ _ _ _ _) as [[t [e|]]|] eqn:E; try discriminate.
      * exfalso. inversion H as [H']. apply on_exception_Ok in H' as [-> _].
        destruct (build_items_raise _ _ _ _ _ _ _ _ E _ eq_refl) as (i & _ & _ & _ & Hi).
        exact (build_tree_no_PermissionError _ _ _ Hi).
      * inversion H. right. split; [reflexivity|]. eauto.
    + inversion H as [H']. apply on_exception_Ok in H' as [-> ->]. auto.
Qed.

(** The two ways in which [build_tree] raises: [os.listdir] raised
    something other than [PermissionError] here, or further down. *)
Lemma build_tree_Raise_inv fuel directory current_depth e :
  build_tree fs (S fuel) directory show_hidden max_depth current_depth = Some (Raise e) ->
  depth_limit_reached max_depth current_depth = false /\ e <> PermissionError /\
  (os_listdir fs directory = Raise e
   \/ exists names item,
        os_listdir fs directory = Ok names /\ In item names /\
        visible show_hidden item = true /\
        os_path_isdir fs (os_path_join directory item) = true /\
        build_tree fs fuel (os_path_join directory item) show_hidden max_depth
          (current_depth + 1) = Some (Raise e)).
Proof.
  simpl. destruct (depth_limit_reached max_depth current_depth); [discriminate|].
  destruct (os_listdir fs directory) as [names|e0].
  - destruct (build_items _ _ _ _ _ _) as [[t [e0|]]|] eqn:E; try discriminate.
    intros H. injection H as H'. apply on_exception_Raise in H' as [-> Hne].
    destruct (build_items_raise _ _ _ _ _ _ _ _ E _ eq_refl) as (i & Hi & ? & ? & ?).
    apply (proj1 (sorted_In _ _)) in Hi.
    repeat split; auto. right. exists names, i. auto.
  - intros H. injection H as H'. apply on_exception_Raise in H' as [-> Hne]. auto.
Qed.

(** Induction on the walk. *)
Lemma build_tree_ind (Q : string -> Z -> value -> Prop) :
  (forall d c, depth_limit_reached max_depth c = true -> Q d c (VStr depth_message)) ->
  (forall d c, depth_limit_reached max_depth c = false ->
     os_listdir fs d = Raise PermissionError ->
     Q d c (VDict [(access_denied, VNone)])) ->
  (forall d c names t, depth_limit_reached max_depth c = false ->
     os_listdir fs d = Ok names ->
     listed_directory fs show_hidden Q d c names t -> Q d c (VDict t)) ->
  forall fuel d c v,
    build_tree fs fuel d show_hidden max_depth c = Some (Ok v) -> Q d c v.
Proof.
  intros Hlimit Hdenied Hlisted.
  induction fuel as [|fuel IH]; intros d c v H; [discriminate|].
  apply build_tree_Ok_inv in H
    as [[Hl ->]|[(Hl & Hd & ->)|(Hl & names & t & Hn & -> & Hloop)]]; auto.
  apply (Hlisted d c names t Hl Hn). repeat split.
  - eapply build_items_sorted; eauto using sorted_StronglySorted.
    + constructor.
    + intros k i [].
  - intros k Hk Hv. eapply build_items_complete; eauto. now apply sorted_In.
  - destruct (build_items_entries _ _ _ _ _ _ _ _ Hloop k v H) as [[]|(Hk & _)].
    now apply sorted_In.
  - destruct (build_items_entries _ _ _ _ _ _ _ _ Hloop k v H) as [[]|(_ & Hv & _)].
    exact Hv.
  - destruct (build_items_entries _ _ _ _ _ _ _ _ Hloop k v H)
      as [[]|(_ & _ & [Hf|[Hd Hr]])]; eauto.
Qed.

(** More fuel does not change a result. *)
Lemma build_tree_fuel_S fuel :
  forall d c r,
    build_tree fs fuel d show_hidden max_depth c = Some r ->
    build_tree fs (S fuel) d show_hidden max_depth c = Some r.
Proof.
  induction fuel as [|fuel IH]; intros d c r; [discriminate|].
  intros H. simpl in H. cbn [build_tree].
  destruct (depth_limit_reached max_depth c); auto.
  destruct (os_listdir fs d) as [names|e]; auto.
  destruct (build_items fs
              (fun p => build_tree fs fuel p show_hidden max_depth (c + 1))
              d show_hidden (sorted names) []) as [x|] eqn:E; [|discriminate].
  erewrite build_items_mono; [exact H| |exact E].
  intros p r'. apply IH.
Qed.

Lemma build_tree_fuel_le fuel fuel' d c r :
  (fuel <= fuel')%nat ->
  build_tree fs fuel d show_hidden max_depth c = Some r ->
  build_tree fs fuel' d show_hidden max_depth c = Some r.
Proof. induction 1; auto using build_tree_fuel_S. Qed.
End BuildTree.

(** With a depth limit the walk returns, whatever the file system: fuel
    beyond the number of levels left is never needed. *)
Lemma build_tree_returns_within_depth (fs : filesystem) (show_hidden : bool) (k : Z) :
  forall fuel d c,
    (0 < fuel)%nat -> (k - c < Z.of_nat fuel)%Z ->
    exists r, build_tree fs fuel d show_hidden (Some k) c = Some r.
Proof.
  induction fuel as [|fuel IH]; intros d c Hpos Hlt; simpl.
  - lia.
  - destruct (Z.geb_spec c k); [eauto|].
    destruct (os_listdir fs d) as [names|e]; [|eauto].
    destruct (build_items_total fs
                (fun p => build_tree fs fuel p show_hidden (Some k) (c + 1))
                d show_hidden (sorted names)) with (t0 := @nil (string * value))
      as [[t [e|]] ->]; eauto.
    intros item _ _. apply IH; lia.
Qed.

(** Without a depth limit the walk returns on a file system that has
    fewer levels of directories below [d] than there is fuel. *)
Lemma build_tree_returns_on_finite (fs : filesystem) (show_hidden : bool)
    (max_depth : option Z) :
  forall fuel d c,
    levels_below fs d fuel ->
    exists r, build_tree fs fuel d show_hidden max_depth c = Some r.
Proof.
  induction fuel as [|fuel IH]; intros d c Hfin; [destruct Hfin|].
  simpl. destruct (depth_limit_reached max_depth c); [eauto|].
  destruct (os_listdir fs d) as [names|e] eqn:El; [|eauto].
  destruct (build_items_total fs
              (fun p => build_tree fs fuel p show_hidden max_depth (c + 1))
              d show_hidden (sorted names)) with (t0 := @nil (string * value))
    as [[t [e|]] ->]; eauto.
  intros item Hin Hdir. apply IH. simpl in Hfin.
  apply (Hfin names item El); [now apply sorted_In | exact Hdir].
Qed.

(** The walk gives the same result on two file systems that differ only
    in the order of their listings. *)
Lemma build_tree_same_directories (fs1 fs2 : filesystem) :
  same_directories fs1 fs2 ->
  forall fuel d show_hidden max_depth c,
    build_tree fs1 fuel d show_hidden max_depth c
    = build_tree fs2 fuel d show_hidden max_depth c.
Proof.
  intros [Hl Hd _ _]. induction fuel as [|fuel IH]; intros d sh md c; simpl; auto.
  destruct (depth_limit_reached md c); auto.
  specialize (Hl d). unfold same_listing in Hl.
  destruct (os_listdir fs1 d) as [l|e], (os_listdir fs2 d) as [l'|e'];
    try contradiction; [|now subst].
  rewrite (sorted_Permutation_eq _ _ Hl).
  erewrite build_items_ext; eauto.
Qed.

(** ** The depth limit *)

Lemma depth_limit_reached_true (k c : Z) :
  depth_limit_reached (Some k) c = true <-> (k <= c)%Z.
Proof. simpl. destruct (Z.geb_spec c k); split; intros; (lia || congruence). Qed.

Lemma depth_limit_reached_false (k c : Z) :
  depth_limit_reached (Some k) c = false <-> (c < k)%Z.
Proof. simpl. destruct (Z.geb_spec c k); split; intros; (lia || congruence). Qed.

Lemma val_at_leaf (v : value) (p : list string) (x : value) :
  (forall items, v <> VDict items) -> val_at v p = Some x -> p = [].
Proof.
  intros Hv. destruct p as [|n p]; [reflexivity|].
  destruct v; simpl; try discriminate. now destruct (Hv items).
Qed.

Section DepthLimit.
Variable fs : filesystem.
Variables (show_hidden : bool) (k : Z).

(** A key path in the result of a walk started at depth [c] ends at
    depth [k] at the latest. *)
Lemma build_tree_path_bound fuel d c v :
  build_tree fs fuel d show_hidden (Some k) c = Some (Ok v) ->
  forall p x, val_at v p = Some x ->
    p = [] \/ (c + Z.of_nat (List.length p) <= k)%Z.
Proof.
  revert fuel d c v.
  apply (build_tree_ind fs show_hidden (Some k)
           (fun _ c v => forall p x, val_at v p = Some x ->
              p = [] \/ (c + Z.of_nat (List.length p) <= k)%Z)).
  - intros d c _ p x H. left. eapply val_at_leaf; eauto. discriminate.
  - intros d c Hl _ [|n p] x H; auto. right.
    apply depth_limit_reached_false in Hl. cbn [val_at dict_get] in H.
    destruct (String.eqb access_denied n); [|discriminate].
    apply val_at_leaf in H; [|discriminate]. subst p. simpl. lia.
  - intros d c names t Hl _ (_ & _ & Hent) [|n p] x H; auto. right.
    apply depth_limit_reached_false in Hl. cbn [val_at] in H.
    destruct (dict_get t n) as [v'|] eqn:Eg; [|discriminate].
    apply dict_get_In in Eg.
    destruct (Hent _ _ Eg) as (_ & _ & [[_ ->]|[_ HQ]]).
    + apply val_at_leaf in H; [|discriminate]. subst p. simpl. lia.
    + destruct (HQ _ _ H) as [->|Hle]; simpl List.length; lia.
Qed.

(** A directory that the walk reaches at depth [k] is in the result,
    as the message of the depth limit. *)
Lemma build_tree_marker_at fuel d c v :
  build_tree fs fuel d show_hidden (Some k) c = Some (Ok v) ->
  forall p, subdir_chain fs show_hidden d p ->
    (c + Z.of_nat (List.length p) = k)%Z ->
    val_at v p = Some (VStr depth_message).
Proof.
  revert fuel d c v.
  apply (build_tree_ind fs show_hidden (Some k)
           (fun d c v => forall p, subdir_chain fs show_hidden d p ->
              (c + Z.of_nat (List.length p) = k)%Z ->
              val_at v p = Some (VStr depth_message))).
  - intros d c Hl [|n p] _ Hlen; [reflexivity|].
    apply depth_limit_reached_true in Hl. simpl List.length in Hlen. lia.
  - intros d c Hl Hden [|n p] Hch Hlen.
    + apply depth_limit_reached_false in Hl. simpl in Hlen. lia.
    + destruct Hch as ((names & Hn & _) & _). congruence.
  - intros d c names t Hl Hn (Hs & Hall & Hent) [|n p] Hch Hlen.
    + apply depth_limit_reached_false in Hl. simpl in Hlen. lia.
    + destruct Hch as ((names' & Hn' & Hin) & Hvis & Hdir & Hch).
      assert (names' = names) by congruence. subst names'.
      destruct (keys_In _ _ (Hall n Hin Hvis)) as [v' Hv'].
      cbn [val_at].
      rewrite (In_dict_get _ _ _ (StronglySorted_lt_NoDup _ Hs) Hv').
      destruct (Hent _ _ Hv') as (_ & _ & [[Hf _]|[_ HQ]]); [congruence|].
      apply HQ; auto. simpl List.length in Hlen. lia.
Qed.
End DepthLimit.

(** C1.  With [max_depth = k >= 0] the walk returns once it is given more
    than [k] levels of recursion, whatever the file system.  When it
    returns a value, no key path of that value is longer than [k]; every
    directory that the walk reaches at depth exactly [k] is in it as the
    single depth-limit message; and for [k = 0] the contents of the root
    itself are replaced by that message. *)
Theorem build_tree_depth_limit (fs : filesystem) (directory : string)
    (show_hidden : bool) (k : Z) :
  (0 <= k)%Z ->
  exists r,
    (forall fuel, (Z.to_nat k < fuel)%nat ->
       build_tree fs fuel directory show_hidden (Some k) 0 = Some r)
    /\ forall v, r = Ok v ->
         (forall p x, val_at v p = Some x -> (Z.of_nat (List.length p) <= k)%Z)
         /\ (forall p, subdir_chain fs show_hidden directory p ->
               Z.of_nat (List.length p) = k ->
               val_at v p = Some (VStr depth_message))
         /\ (k = 0%Z -> v = VStr depth_message).
Proof.
  intros Hk.
  destruct (build_tree_returns_within_depth fs show_hidden k
              (S (Z.to_nat k)) directory 0) as [r Hr]; [lia | lia |].
  exists r. split.
  - intros fuel Hfuel. eapply build_tree_fuel_le; [|exact Hr]. lia.
  - intros v ->. split; [|split].
    + intros p x Hp.
      destruct (build_tree_path_bound _ _ _ _ _ _ _ Hr p x Hp) as [->|Hle];
        simpl; lia.
    + intros p Hch Hlen. eapply build_tree_marker_at; eauto.
    + intros ->.
      assert (Hm := build_tree_marker_at _ _ _ _ _ _ _ Hr [] I eq_refl).
      simpl in Hm. congruence.
Qed.

Lemma build_tree_depth_limit_witness :
  exists v,
    build_tree demo_fs 3 "/r" false (Some 1%Z) 0 = Some (Ok v)
    /\ (forall p x, val_at v p = Some x -> (Z.of_nat (List.length p) <= 1)%Z)
    /\ val_at v ["sub"] = Some (VStr depth_message).
Proof.
  destruct (build_tree_depth_limit demo_fs "/r" false 1 ltac:(lia))
    as (r & Hr & Hv).
  specialize (Hr 3%nat ltac:(simpl; lia)).
  rewrite Hr. destruct r as [v|e]; [|vm_compute in Hr; discriminate].
  exists v. split; [reflexivity|].
  destruct (Hv v eq_refl) as (Hb & Hm & _).
  split; [exact Hb|]. apply Hm; [|reflexivity].
  simpl. repeat split. exists ["sub"; "a.txt"; ".git"; "B"]. simpl. auto.
Defined.

(** ** Hidden entries *)

Lemma node_names_dict (items : list (string * value)) (n : string) :
  In n (node_names (VDict items)) <->
  exists k v, In (k, v) items /\ (n = k \/ In n (node_names v)).
Proof.
  cbn [node_names]. rewrite in_flat_map. split.
  - intros [[k v] [Hin [H|H]]]; simpl in *; eauto 6.
  - intros (k & v & Hin & H). exists (k, v). simpl. intuition.
Qed.

(** Without [show_hidden] no name in the result starts with a dot. *)
Lemma build_tree_no_hidden_name (fs : filesystem) (max_depth : option Z) :
  forall fuel d c v,
    build_tree fs fuel d false max_depth c = Some (Ok v) ->
    forall n, In n (node_names v) -> startswith n "." = false.
Proof.
  apply (build_tree_ind fs false max_depth
           (fun _ _ v => forall n, In n (node_names v) -> startswith n "." = false)).
  - intros _ _ _ n [].
  - intros _ _ _ _ n [<-|[]]. reflexivity.
  - intros d c names t _ _ (_ & _ & Hent) n Hn.
    apply node_names_dict in Hn as (k & v & Hin & Hn).
    destruct (Hent _ _ Hin) as (_ & Hvis & Hv).
    destruct Hn as [->|Hn].
    + unfold visible in Hvis. simpl in Hvis.
      now destruct (startswith k ".").
    + destruct Hv as [[_ ->]|[_ HQ]]; [destruct Hn | auto].
Qed.

(** With no depth limit every entry that is not skipped is a key of the
    result. *)
Lemma build_tree_lists_visible (fs : filesystem) (show_hidden : bool) :
  forall fuel d c v,
    build_tree fs fuel d show_hidden None c = Some (Ok v) ->
    forall names n, os_listdir fs d = Ok names -> In n names ->
      visible show_hidden n = true -> In n (node_names v).
Proof.
  apply (build_tree_ind fs show_hidden None
           (fun d _ v => forall names n, os_listdir fs d = Ok names -> In n names ->
              visible show_hidden n = true -> In n (node_names v))).
  - discriminate.
  - intros; congruence.
  - intros d c names t _ Hn (_ & Hall & _) names' n Hn' Hin Hvis.
    assert (names' = names) by congruence. subst names'.
    destruct (keys_In _ _ (Hall n Hin Hvis)) as [v Hv].
    apply node_names_dict. eauto.
Qed.

(** C2.  An entry [H] of [D] whose name starts with ['.'] names no node of
    [build_tree(D, show_hidden=False)], at any depth, and names a node of
    [build_tree(D, show_hidden=True)]. *)
Theorem hidden_entries_skipped (fs : filesystem) (fuel : nat) (D : string)
    (names : list string) (H : string) :
  os_listdir fs D = Ok names -> In H names -> startswith H "." = true ->
  (forall v, build_tree fs fuel D false None 0 = Some (Ok v) ->
     ~ In H (node_names v))
  /\ (forall v, build_tree fs fuel D true None 0 = Some (Ok v) ->
        In H (node_names v)).
Proof.
  intros Hn Hin Hdot. split; intros v Hv.
  - intros Hc. apply (build_tree_no_hidden_name _ _ _ _ _ _ Hv) in Hc. congruence.
  - eapply build_tree_lists_visible; eauto.
Qed.

Lemma hidden_entries_skipped_witness :
  (exists v, build_tree demo_fs 4 "/r" false None 0 = Some (Ok v)
             /\ ~ In ".git" (node_names v))
  /\ (exists v, build_tree demo_fs 4 "/r" true None 0 = Some (Ok v)
                /\ In ".git" (node_names v)).
Proof.
  destruct (hidden_entries_skipped demo_fs 4 "/r" ["sub"; "a.txt"; ".git"; "B"] ".git"
              eq_refl ltac:(simpl; auto) eq_refl) as [Hno Hyes].
  split; eexists; (split; [reflexivity|]); [apply Hno | apply Hyes]; reflexivity.
Defined.

(** ** Order of the children *)

Lemma occurs_in_leaf (x v : value) :
  (forall items, v <> VDict items) -> occurs_in x v -> x = v.
Proof. intros Hv H. inversion H; subst; [reflexivity | now destruct (Hv items)]. Qed.

(** The keys of every dictionary of the result are strictly ascending. *)
Lemma build_tree_keys_sorted (fs : filesystem) (show_hidden : bool)
    (max_depth : option Z) :
  forall fuel d c v,
    build_tree fs fuel d show_hidden max_depth c = Some (Ok v) ->
    forall items, occurs_in (VDict items) v -> StronglySorted str_lt (keys items).
Proof.
  apply (build_tree_ind fs show_hidden max_depth
           (fun _ _ v => forall items, occurs_in (VDict items) v ->
              StronglySorted str_lt (keys items))).
  - intros _ _ _ items H. apply occurs_in_leaf in H; discriminate.
  - intros _ _ _ _ items H. inversion H as [|? k x Hin Hx]; subst.
    + repeat constructor.
    + destruct Hin as [E|[]]. inversion E; subst.
      apply occurs_in_leaf in Hx; discriminate.
  - intros d c names t _ _ (Hs & _ & Hent) items H.
    inversion H as [|? k x Hin Hx]; subst; [exact Hs|].
    destruct (Hent _ _ Hin) as (_ & _ & [[_ ->]|[_ HQ]]); auto.
    apply occurs_in_leaf in Hx; discriminate.
Qed.

(** A run of the program depends on the file system only up to the order
    of its listings. *)
Lemma main_same_directories (fs1 fs2 : filesystem) (fuel : nat) (args : arguments) :
  same_directories fs1 fs2 -> main fs1 fuel args = main fs2 fuel args.
Proof.
  intros Hsame. unfold main.
  rewrite (same_abspath _ _ Hsame), (same_exists _ _ Hsame).
  now rewrite (build_tree_same_directories _ _ Hsame).
Qed.

(** C3.  The keys of every dictionary in the result of [build_tree] are in
    strictly ascending byte order; and a second run over the same
    directories, whatever the order in which [os.listdir] reports their
    entries, builds the same value and ends with the same terminal text,
    the same JSON text and the same graph. *)
Theorem children_sorted_deterministic (fs fs' : filesystem) (fuel : nat)
    (args : arguments) (v : value) :
  same_directories fs fs' ->
  build_tree fs fuel (os_path_abspath fs (arg_directory args))
    (arg_show_hidden args) (arg_max_depth args) 0 = Some (Ok v) ->
  (forall items, occurs_in (VDict items) v -> StronglySorted str_lt (keys items))
  /\ build_tree fs' fuel (os_path_abspath fs' (arg_directory args))
       (arg_show_hidden args) (arg_max_depth args) 0 = Some (Ok v)
  /\ main fs' fuel args = main fs fuel args.
Proof.
  intros Hsame Hv. split; [|split].
  - eapply build_tree_keys_sorted; eauto.
  - now rewrite <- (same_abspath _ _ Hsame), <- (build_tree_same_directories _ _ Hsame).
  - symmetry. now apply main_same_directories.
Qed.

Lemma demo_same_directories : same_directories demo_fs demo_fs'.
Proof.
  split; try reflexivity. intros p. simpl.
  destruct (demo_listdir p); simpl; [apply Permutation_rev | reflexivity].
Qed.

Lemma children_sorted_deterministic_witness :
  exists v,
    build_tree demo_fs 4 "/r" true None 0 = Some (Ok v)
    /\ (forall items, occurs_in (VDict items) v -> StronglySorted str_lt (keys items))
    /\ main demo_fs' 4 {| arg_directory := "/r"; arg_show_hidden := true;
                          arg_max_depth := None |}
       = main demo_fs 4 {| arg_directory := "/r"; arg_show_hidden := true;
                           arg_max_depth := None |}.
Proof.
  eexists. split; [reflexivity|].
  destruct (children_sorted_deterministic demo_fs demo_fs' 4
              {| arg_directory := "/r"; arg_show_hidden := true;
                 arg_max_depth := None |} _ demo_same_directories eq_refl)
    as (Hs & _ & Hm).
  split; assumption.
Defined.

(** ** Errors while listing *)

Lemma depth_limit_reached_mono (max_depth : option Z) (c : Z) (n : nat) :
  depth_limit_reached max_depth (c + Z.of_nat n) = false ->
  depth_limit_reached max_depth c = false.
Proof.
  destruct max_depth as [m|]; [|reflexivity].
  rewrite !depth_limit_reached_false. lia.
Qed.

Section Errors.
Variable fs : filesystem.
Variables (show_hidden : bool) (max_depth : option Z).

(** What the result holds at a directory the walk goes down to is what
    the walk of that directory returns. *)
Lemma build_tree_at :
  forall p fuel d c v,
    build_tree fs fuel d show_hidden max_depth c = Some (Ok v) ->
    subdir_chain fs show_hidden d p ->
    depth_limit_reached max_depth (c + Z.of_nat (List.length p)) = false ->
    exists x,
      val_at v p = Some x /\
      build_tree fs fuel (path_from d p) show_hidden max_depth
        (c + Z.of_nat (List.length p)) = Some (Ok x).
Proof.
  induction p as [|n p IH]; intros fuel d c v Hv Hch Hl.
  - exists v. simpl. rewrite Z.add_0_r. auto.
  - destruct fuel as [|fuel]; [discriminate|].
    destruct Hch as ((names' & Hn' & Hin) & Hvis & Hdir & Hch).
    assert (Hl0 := depth_limit_reached_mono _ _ _ Hl).
    apply build_tree_Ok_inv in Hv
      as [[Hl' _]|[(_ & Hd & _)|(_ & names & t & Hn & -> & Hloop)]];
      try congruence.
    assert (names' = names) by congruence. subst names'.
    assert (Hk : In n (keys t)).
    { eapply build_items_complete; eauto. now apply sorted_In. }
    destruct (keys_In _ _ Hk) as [v' Hv'].
    assert (Hs : StronglySorted str_lt (keys t)).
    { eapply build_items_sorted; eauto using sorted_StronglySorted.
      - constructor.
      - intros k i []. }
    destruct (build_items_entries _ _ _ _ _ _ _ _ Hloop _ _ Hv')
      as [[]|(_ & _ & [[Hf _]|[_ Hr]])]; [congruence|].
    replace (c + Z.of_nat (List.length (n :: p)))%Z
      with (c + 1 + Z.of_nat (List.length p))%Z in * by (simpl List.length; lia).
    destruct (IH _ _ _ _ Hr Hch Hl) as (x & Hx & Hb).
    exists x. split.
    + cbn [val_at].
      now rewrite (In_dict_get _ _ _ (StronglySorted_lt_NoDup _ Hs) Hv').
    + apply build_tree_fuel_S. exact Hb.
Qed.

Lemma build_tree_listdir_raises fuel d c e :
  depth_limit_reached max_depth c = false ->
  os_listdir fs d = Raise e ->
  build_tree fs (S fuel) d show_hidden max_depth c = Some (on_exception e []).
Proof. intros Hl Hd. simpl. now rewrite Hl, Hd. Qed.
End Errors.

(** C4.  Let [os.listdir] raise [e] on a directory that the walk from
    [d] goes down to.  If [e] is a [PermissionError], the walk of that
    directory returns the dictionary with the single access-denied entry,
    and a walk from [d] that returns a value holds that dictionary at
    the place of the directory and still holds every other directory it
    goes down to.  Any other [e] leaves [build_tree]: the walk of that
    directory raises [e], and the walk from [d] returns no value: if it
    returns at all it raises, and never a [PermissionError]. *)
Theorem listing_errors (fs : filesystem) (show_hidden : bool) (max_depth : option Z)
    (d : string) (c : Z) (p : list string) (e : exn) :
  subdir_chain fs show_hidden d p ->
  depth_limit_reached max_depth (c + Z.of_nat (List.length p)) = false ->
  os_listdir fs (path_from d p) = Raise e ->
  (e = PermissionError ->
     (forall fuel,
        build_tree fs (S fuel) (path_from d p) show_hidden max_depth
          (c + Z.of_nat (List.length p))
        = Some (Ok (VDict [(access_denied, VNone)])))
     /\ (forall fuel v,
           build_tree fs fuel d show_hidden max_depth c = Some (Ok v) ->
           val_at v p = Some (VDict [(access_denied, VNone)])
           /\ forall q, subdir_chain fs show_hidden d q ->
                depth_limit_reached max_depth (c + Z.of_nat (List.length q)) = false ->
                exists items, val_at v q = Some (VDict items)))
  /\ (e <> PermissionError ->
        (forall fuel,
           build_tree fs (S fuel) (path_from d p) show_hidden max_depth
             (c + Z.of_nat (List.length p))
           = Some (Raise e))
        /\ (forall fuel r,
              build_tree fs fuel d show_hidden max_depth c = Some r ->
              exists e', r = Raise e' /\ e' <> PermissionError)).
Proof.
  intros Hch Hl He. split.
  - intros ->. split.
    + intros fuel. now rewrite (build_tree_listdir_raises _ _ _ _ _ _ _ Hl He).
    + intros fuel v Hv. split.
      * destruct (build_tree_at _ _ _ _ _ _ _ _ Hv Hch Hl) as (x & Hx & Hb).
        destruct fuel as [|fuel]; [discriminate|].
        rewrite (build_tree_listdir_raises _ _ _ _ _ _ _ Hl He) in Hb.
        simpl in Hb. congruence.
      * intros q Hq Hlq.
        destruct (build_tree_at _ _ _ _ _ _ _ _ Hv Hq Hlq) as (x & Hx & Hb).
        destruct fuel as [|fuel]; [discriminate|].
        apply build_tree_Ok_inv in Hb
          as [[Hl' _]|[(_ & _ & ->)|(_ & names & t & _ & -> & _)]];
          [congruence| |]; eauto.
  - intros Hne. split.
    + intros fuel. rewrite (build_tree_listdir_raises _ _ _ _ _ _ _ Hl He).
      destruct e; simpl; congruence.
    + intros fuel [v|e'] Hr.
      * exfalso.
        destruct (build_tree_at _ _ _ _ _ _ _ _ Hr Hch Hl) as (x & Hx & Hb).
        destruct fuel as [|fuel]; [discriminate|].
        rewrite (build_tree_listdir_raises _ _ _ _ _ _ _ Hl He) in Hb.
        destruct e; simpl in Hb; congruence.
      * exists e'. split; [reflexivity|]. intros ->.
        exact (build_tree_no_PermissionError _ _ _ _ _ _ Hr).
Qed.

Lemma listing_errors_witness :
  (exists v,
     build_tree demo_fs 4 "/r" false None 0 = Some (Ok v)
     /\ val_at v ["sub"; "deep"] = Some (VDict [(access_denied, VNone)])
     /\ exists items, val_at v ["sub"; "e"] = Some (VDict items))
  /\ build_tree demo_fs 4 "/w" false None 0 = Some (Raise FileNotFoundError).
Proof.
  split.
  - destruct (listing_errors demo_fs false None "/r" 0 ["sub"; "deep"] PermissionError)
      as [Hperm _]; [| reflexivity | reflexivity |].
    + simpl. repeat split.
      * exists ["sub"; "a.txt"; ".git"; "B"]. simpl. auto.
      * exists ["e"; "deep"; "b.txt"]. simpl. auto.
    + destruct (Hperm eq_refl) as [_ Hv].
      eexists. split; [reflexivity|].
      destruct (Hv 4%nat _ eq_refl) as [Hd Hq]. split; [exact Hd|].
      apply Hq; [|reflexivity]. simpl. repeat split.
      * exists ["sub"; "a.txt"; ".git"; "B"]. simpl. auto.
      * exists ["e"; "deep"; "b.txt"]. simpl. auto.
  - destruct (listing_errors demo_fs false None "/w" 0 ["gone"] FileNotFoundError)
      as [_ Hother]; [| reflexivity | reflexivity |].
    + simpl. repeat split. exists ["x"; "gone"]. simpl. auto.
    + destruct (Hother ltac:(discriminate)) as [_ Hr].
      destruct (Hr 4%nat _ eq_refl) as (e' & He' & _). reflexivity.
Defined.

(** ** The shape of the values *)

(** On a dictionary [add_nodes_edges_from_tree] returns: the three cases
    of its loop cover every value. *)
Lemma add_nodes_edges_from_tree_dict (items : list (string * value)) :
  forall parent_id g,
    exists g', add_nodes_edges_from_tree (VDict items) parent_id g = Ok g'.
Proof.
  assert (H : forall v parent_id g,
             match v with
             | VDict _ => exists g', add_nodes_edges_from_tree v parent_id g = Ok g'
             | _ => True
             end).
  { induction v as [|s|its IH] using value_nested_ind; try exact (fun _ _ => I).
    intros parent_id. cbn [add_nodes_edges_from_tree].
    induction IH as [|[name child] its Hc _ IHl]; intros g; cbn [add_items]; eauto.
    destruct child as [|s|sub]; auto. cbn [snd] in Hc.
    destruct (Hc (parent_id ++ "/" ++ name)%string
                (add_edge (add_node g (Node (parent_id ++ "/" ++ name) name box))
                   parent_id (parent_id ++ "/" ++ name))) as [g' ->].
    apply IHl. }
  intros parent_id g. exact (H (VDict items) parent_id g).
Qed.

Lemma build_tree_strings (fs : filesystem) (show_hidden : bool) (max_depth : option Z) :
  forall fuel d c v,
    build_tree fs fuel d show_hidden max_depth c = Some (Ok v) ->
    forall x, occurs_in x v ->
      x = VNone \/ (exists items, x = VDict items) \/ x = VStr depth_message.
Proof.
  apply (build_tree_ind fs show_hidden max_depth
           (fun _ _ v => forall x, occurs_in x v ->
              x = VNone \/ (exists items, x = VDict items) \/ x = VStr depth_message)).
  - intros _ _ _ x H. apply occurs_in_leaf in H; [auto | discriminate].
  - intros _ _ _ _ x H. inversion H as [|? k y Hin Hy]; subst; eauto.
    destruct Hin as [E|[]]. inversion E; subst.
    apply occurs_in_leaf in Hy; [auto | discriminate].
  - intros d c names t _ _ (_ & _ & Hent) x H.
    inversion H as [|? k y Hin Hy]; subst; eauto.
    destruct (Hent _ _ Hin) as (_ & _ & [[_ ->]|[_ HQ]]); auto.
    apply occurs_in_leaf in Hy; [auto | discriminate].
Qed.

(** C10.  Every value in the result of [build_tree] is [None], a [dict]
    or the depth-limit message, and the result is that message when the
    limit applies at the root.  A directory that cannot be listed is the
    dictionary with the key ["🚫 Access Denied"] and the value [None]; the
    access-denied text never occurs as a string value.  On every
    dictionary of the result the loop of [add_nodes_edges_from_tree]
    returns. *)
Theorem build_tree_value_shapes (fs : filesystem) (fuel : nat) (d : string)
    (show_hidden : bool) (max_depth : option Z) (c : Z) (v : value) :
  build_tree fs fuel d show_hidden max_depth c = Some (Ok v) ->
  (forall x, occurs_in x v ->
     x = VNone \/ (exists items, x = VDict items) \/ x = VStr depth_message)
  /\ (depth_limit_reached max_depth c = true -> v = VStr depth_message)
  /\ (forall p, subdir_chain fs show_hidden d p ->
        depth_limit_reached max_depth (c + Z.of_nat (List.length p)) = false ->
        os_listdir fs (path_from d p) = Raise PermissionError ->
        val_at v p = Some (VDict [(access_denied, VNone)]))
  /\ (forall x, occurs_in x v -> x <> VStr access_denied)
  /\ (forall items parent_id g, occurs_in (VDict items) v ->
        exists g', add_nodes_edges_from_tree (VDict items) parent_id g = Ok g').
Proof.
  intros Hv. repeat split.
  - eapply build_tree_strings; eauto.
  - intros Hl. destruct fuel as [|fuel]; [discriminate|].
    apply build_tree_Ok_inv in Hv as [[_ ->]|[(Hl' & _)|(Hl' & _)]]; congruence.
  - intros p Hch Hl He.
    destruct (build_tree_at _ _ _ _ _ _ _ _ Hv Hch Hl) as (x & Hx & Hb).
    destruct fuel as [|fuel]; [discriminate|].
    rewrite (build_tree_listdir_raises _ _ _ _ _ _ _ Hl He) in Hb.
    simpl in Hb. congruence.
  - intros x Hx.
    destruct (build_tree_strings _ _ _ _ _ _ _ Hv x Hx) as [->|[[items ->]| ->]];
      discriminate.
  - intros items parent_id g _. apply add_nodes_edges_from_tree_dict.
Qed.

Lemma build_tree_value_shapes_witness :
  exists v,
    build_tree demo_fs 4 "/r" false (Some 2%Z) 0 = Some (Ok v)
    /\ (forall x, occurs_in x v ->
          x = VNone \/ (exists items, x = VDict items) \/ x = VStr depth_message)
    /\ (forall x, occurs_in x v -> x <> VStr access_denied).
Proof.
  eexists. split; [reflexivity|].
  destruct (build_tree_value_shapes demo_fs 4 "/r" false (Some 2%Z) 0 _ eq_refl)
    as (H1 & _ & _ & H4 & _).
  split; assumption.
Defined.

(** ** The text tree *)

(** Counting entries as [enumerate] does against [len(tree) - 1] tells
    the last entry from the others. *)
Lemma display_items_render_children (prefix : string) (n : Z) :
  forall its i,
    (i + Z.of_nat (List.length its) = n)%Z ->
    display_items display_tree prefix n i its = render_children prefix its.
Proof.
  induction its as [|[name content] rest IH]; intros i Hn; [reflexivity|].
  cbn [display_items render_children].
  rewrite IH by (simpl List.length in Hn; lia).
  assert (E : (i <? n - 1)%Z = match rest with [] => false | _ :: _ => true end).
  { destruct rest; simpl List.length in Hn; destruct (Z.ltb_spec i (n - 1)); lia || reflexivity. }
  rewrite E. now destruct rest.
Qed.

(** C6, as the code has it.  The children of a directory are drawn as
    [render_children] says: each name with a branch glyph, and the
    depth-limit message under the name of the directory it stands for,
    behind four blanks and without a glyph.  A tree that is a string is
    printed as it is.  The access-denied leaf is an entry of its
    directory like any other and is drawn with the terminal branch
    glyph. *)
Theorem display_tree_lines :
  (forall items prefix,
     display_tree (VDict items) prefix = render_children prefix items)
  /\ (forall s prefix, display_tree (VStr s) prefix = [(prefix ++ s)%string])
  /\ (forall prefix,
        display_tree (VDict [(access_denied, VNone)]) prefix
        = [(prefix ++ branch_last ++ access_denied)%string]).
Proof.
  split; [|split].
  - intros items prefix. cbn [display_tree].
    apply display_items_render_children. lia.
  - reflexivity.
  - reflexivity.
Qed.

(** C6 as stated fails: under [/r/sub] the directory [deep] cannot be
    listed, and its access-denied leaf is drawn with a branch glyph, not
    as a bare label behind blanks. *)
Lemma access_denied_drawn_with_glyph :
  exists v,
    build_tree demo_fs 2 "/r/sub" false None 0 = Some (Ok v)
    /\ display_tree v ""
       = ["├── b.txt"; "├── deep"; "│   └── 🚫 Access Denied"; "└── e"]
    /\ ~ In ("│       " ++ access_denied)%string (display_tree v "")
    /\ ~ In ("    " ++ access_denied)%string (display_tree v "").
Proof.
  eexists. split; [reflexivity|]. split; [reflexivity|].
  split; intros H; vm_compute in H; intuition discriminate.
Qed.

(** ** The graph *)

Lemma graph_le_refl (g : graph) : graph_le g g.
Proof. split; apply incl_refl. Qed.

Lemma graph_le_trans (g1 g2 g3 : graph) :
  graph_le g1 g2 -> graph_le g2 g3 -> graph_le g1 g3.
Proof. intros [? ?] [? ?]. split; eapply incl_tran; eauto. Qed.

Lemma graph_le_add_node (g : graph) (n : node) : graph_le g (add_node g n).
Proof. split; simpl; [apply incl_appl|]; apply incl_refl. Qed.

Lemma graph_le_add_edge (g : graph) (a b : string) : graph_le g (add_edge g a b).
Proof. split; simpl; [|apply incl_appl]; apply incl_refl. Qed.

Lemma In_add_node (g : graph) (n : node) : In n (nodes (add_node g n)).
Proof. simpl. apply in_or_app. simpl. auto. Qed.

Lemma In_add_edge (g : graph) (a b : string) : In (a, b) (edges (add_edge g a b)).
Proof. simpl. apply in_or_app. simpl. auto. Qed.

Lemma emitted_le (root_id : string) (p : list string) (x : value) (g g' : graph) :
  graph_le g g' -> emitted root_id p x g -> emitted root_id p x g'.
Proof.
  intros [Hn He] (H1 & H2 & H3). repeat split; auto.
  - apply Hn, (H3 s H).
  - apply He, (H3 s H).
Qed.

(** Below a child the identifiers start from the identifier of the child. *)
Lemma emitted_below (parent_id name : string) (p : list string) (x : value) (g : graph) :
  p <> [] ->
  emitted (parent_id ++ "/" ++ name)%string p x g ->
  emitted parent_id (name :: p) x g.
Proof.
  intros Hp. unfold emitted.
  destruct p as [|n p]; [congruence|]. exact (fun H => H).
Qed.

(** The entry the loop has just added. *)
Lemma emitted_here (parent_id name : string) (x : value) (g g' : graph) :
  graph_le
    (add_edge (add_node g (Node (parent_id ++ "/" ++ name) name box))
       parent_id (parent_id ++ "/" ++ name)) g' ->
  (forall s, x = VStr s ->
     In (Node ((parent_id ++ "/" ++ name) ++ "_leaf") s ellipse) (nodes g')
     /\ In ((parent_id ++ "/" ++ name)%string,
            ((parent_id ++ "/" ++ name) ++ "_leaf")%string) (edges g')) ->
  emitted parent_id [name] x g'.
Proof.
  intros [Hn He] Hs. repeat split; try (apply (Hs s); assumption).
  - apply Hn. simpl. apply in_or_app. simpl. auto.
  - apply He. simpl. apply in_or_app. simpl. auto.
Qed.

Lemma add_items_emits (parent_id : string) (its : list (string * value)) :
  Forall (fun kv => emits (snd kv)) its ->
  forall g g',
    add_items add_nodes_edges_from_tree parent_id its g = Ok g' ->
    graph_le g g'
    /\ forall n p x, val_at (VDict its) (n :: p) = Some x ->
         emitted parent_id (n :: p) x g'.
Proof.
  induction 1 as [|[name child] rest Hc _ IH]; intros g g' Hg.
  - inversion Hg; subst. split; [apply graph_le_refl|]. discriminate.
  - cbn [add_items] in Hg. cbn [snd] in Hc.
    set (child_id := (parent_id ++ "/" ++ name)%string) in *.
    set (g1 := add_edge (add_node g (Node child_id name box)) parent_id child_id) in *.
    assert (Hg1 : graph_le g g1).
    { eapply graph_le_trans; [apply graph_le_add_node | apply graph_le_add_edge]. }
    assert (Hstep : exists g2,
               graph_le g1 g2
               /\ add_items add_nodes_edges_from_tree parent_id rest g2 = Ok g'
               /\ (forall s, child = VStr s ->
                     In (Node (child_id ++ "_leaf") s ellipse) (nodes g2)
                     /\ In (child_id, (child_id ++ "_leaf")%string) (edges g2))
               /\ (forall p x, p <> [] -> val_at child p = Some x ->
                     emitted child_id p x g2)).
    { destruct child as [|s|sub].
      - exists g1.
        split; [apply graph_le_refl | split; [exact Hg | split; [discriminate|]]].
        intros p x Hp Hx. apply val_at_leaf in Hx; [congruence | discriminate].
      - eexists. split; [|split; [exact Hg|split]].
        + eapply graph_le_trans; [apply graph_le_add_node | apply graph_le_add_edge].
        + intros s' E. inversion E; subst s'. split.
          * apply graph_le_add_edge, In_add_node.
          * apply In_add_edge.
        + intros p x Hp Hx. apply val_at_leaf in Hx; [congruence | discriminate].
      - destruct (add_nodes_edges_from_tree (VDict sub) child_id g1) as [g2|e] eqn:E;
          [|discriminate].
        destruct (Hc _ _ _ E) as [Hle Hem].
        exists g2.
        split; [exact Hle | split; [exact Hg | split; [discriminate | exact Hem]]]. }
    destruct Hstep as (g2 & Hg12 & Hrest & Hleaf & Hsub).
    destruct (IH _ _ Hrest) as [Hg2 Hem].
    split; [eauto using graph_le_trans|].
    intros n p x Hx. cbn [val_at dict_get] in Hx.
    destruct (String.eqb_spec name n) as [->|Hne].
    + destruct p as [|n' p].
      * simpl in Hx. inversion Hx; subst x.
        apply (emitted_here parent_id n child g g'); [eauto using graph_le_trans|].
        intros s E. destruct (Hleaf s E) as [Hn He].
        destruct Hg2 as [Hgn Hge]. split; [apply Hgn, Hn | apply Hge, He].
      * apply emitted_below; [discriminate|].
        eapply emitted_le; [exact Hg2|]. apply Hsub; [discriminate | exact Hx].
    + apply Hem. exact Hx.
Qed.

Lemma add_nodes_edges_from_tree_emits (v : value) : emits v.
Proof.
  induction v as [|s|its IH] using value_nested_ind;
    intros parent_id g g' Hg; try discriminate.
  cbn [add_nodes_edges_from_tree] in Hg.
  destruct (add_items_emits parent_id its IH g g' Hg) as [Hle Hem].
  split; [exact Hle|]. intros [|n p] x Hp Hx; [congruence|]. now apply Hem.
Qed.

(** C7, as the code has it.  When the graph is produced, every entry of
    the tree is a box node labelled with its name, whose identifier is
    the chain of names from the root, with an edge from the node of its
    parent.  An entry whose value is the depth-limit message has, in
    addition, an ellipse labelled with the message, whose identifier is
    that of the entry followed by ["_leaf"], with an edge from the node of
    the entry.  The access-denied leaf is an entry: a box. *)
Theorem graph_of_tree (v : value) (root_label : string) (g : graph) :
  generate_tree_image v root_label = Ok g ->
  In (Node root_label root_label box) (nodes g)
  /\ (forall p x, p <> [] -> val_at v p = Some x -> emitted root_label p x g)
  /\ (forall p, val_at v (p ++ [access_denied]) = Some VNone ->
        In (Node (node_id_at root_label p ++ "/" ++ access_denied) access_denied box)
          (nodes g)
        /\ In (node_id_at root_label p,
               (node_id_at root_label p ++ "/" ++ access_denied)%string) (edges g)).
Proof.
  unfold generate_tree_image. intros Hg.
  destruct (add_nodes_edges_from_tree_emits v _ _ _ Hg) as [[Hn _] Hem].
  split; [|split].
  - apply Hn. simpl. auto.
  - exact Hem.
  - intros p Hp.
    destruct (Hem (p ++ [access_denied]) VNone) as (H1 & H2 & _); auto.
    { now destruct p. }
    rewrite last_last in H1. rewrite removelast_last in H2.
    unfold node_id_at in H1, H2. rewrite fold_left_app in H1, H2. auto.
Qed.

Lemma graph_of_tree_witness :
  exists v g,
    build_tree demo_fs 4 "/r" false (Some 2%Z) 0 = Some (Ok v)
    /\ generate_tree_image v "r" = Ok g
    /\ In (Node "r/sub/deep_leaf" depth_message ellipse) (nodes g)
    /\ In ("r/sub/deep", "r/sub/deep_leaf") (edges g).
Proof.
  let r := eval vm_compute in (build_tree demo_fs 4 "/r" false (Some 2%Z) 0) in
  match r with
  | Some (Ok ?v) =>
      let r' := eval vm_compute in (generate_tree_image v "r") in
      match r' with
      | Ok ?g =>
          exists v, g; split; [reflexivity|]; split; [reflexivity|];
          destruct (graph_of_tree v "r" g eq_refl) as (_ & Hem & _)
      end
  end.
  destruct (Hem ["sub"; "deep"] (VStr depth_message) ltac:(discriminate) eq_refl)
    as (_ & _ & Hleaf).
  exact (Hleaf depth_message eq_refl).
Defined.

(** C7 as stated fails: the access-denied leaf under [/r/sub/deep] is a
    box node named after the path, and the graph has no ellipse at all. *)
Lemma access_denied_is_a_box :
  exists v g,
    build_tree demo_fs 2 "/r/sub" false None 0 = Some (Ok v)
    /\ generate_tree_image v "sub" = Ok g
    /\ In (Node "sub/deep/🚫 Access Denied" access_denied box) (nodes g)
    /\ forall n, In n (nodes g) -> node_shape n = box.
Proof.
  do 2 eexists. split; [reflexivity|]. split; [reflexivity|]. split.
  - simpl. tauto.
  - intros n Hn. simpl in Hn.
    repeat (destruct Hn as [<-|Hn]; [reflexivity|]). destruct Hn.
Qed.

(** ** The JSON document *)

Lemma string_app_nil_r (s : string) : (s ++ "")%string = s.
Proof. induction s as [|c s IH]; simpl; congruence. Qed.

Lemma string_app_assoc (a b c : string) :
  ((a ++ b) ++ c)%string = (a ++ (b ++ c))%string.
Proof. induction a as [|x a IH]; simpl; congruence. Qed.

Lemma string_concat_cons (sep a b : string) (l : list string) :
  String.concat sep (a :: b :: l) = (a ++ sep ++ String.concat sep (b :: l))%string.
Proof. reflexivity. Qed.

Lemma encode_items_concat (level : nat) (rest : list (string * value)) :
  forall kv,
    (json_entry level kv ++ encode_items json_encode level false rest)%string
    = String.concat (String "," (newline_indent (S level)))
        (map (json_entry level) (kv :: rest)).
Proof.
  induction rest as [|kv' rest IH]; intros kv.
  - cbn [encode_items map String.concat]. apply string_app_nil_r.
  - destruct kv' as [k' x']. cbn [encode_items map]. cbn [map] in IH.
    rewrite string_concat_cons, <- (IH (k', x')). unfold json_entry. cbn [fst snd].
    now rewrite !string_app_assoc.
Qed.

(** C5, as the code has it.  A file is written as [null], the
    depth-limit message as a bare string, a directory as the mapping from
    the names of its children to their documents, in the order of the
    dictionary.  A directory that cannot be listed is such a mapping too:
    its only key is the access-denied label and the value is [null]. *)
Theorem json_documents :
  (forall level, json_encode VNone level = "null")
  /\ (forall level,
        json_encode (VStr depth_message) level = encode_basestring depth_message)
  /\ (forall level, json_encode (VDict []) level = "{}")
  /\ (forall kv rest level,
        json_encode (VDict (kv :: rest)) level
        = ("{" ++ newline_indent (S level)
            ++ String.concat (String "," (newline_indent (S level)))
                 (map (json_entry level) (kv :: rest))
            ++ newline_indent level ++ "}")%string)
  /\ (forall fs fuel d show_hidden max_depth c,
        depth_limit_reached max_depth c = false ->
        os_listdir fs d = Raise PermissionError ->
        exists v,
          build_tree fs (S fuel) d show_hidden max_depth c = Some (Ok v)
          /\ json_dumps v
             = ("{" ++ newline_indent 1 ++ encode_basestring access_denied
                 ++ ": null" ++ newline_indent 0 ++ "}")%string).
Proof.
  repeat split.
  - intros [k x] rest level. cbn [json_encode encode_items].
    rewrite <- encode_items_concat. unfold json_entry. cbn [fst snd].
    rewrite !string_app_assoc. reflexivity.
  - intros fs fuel d sh md c Hl Hd.
    rewrite (build_tree_listdir_raises _ _ _ _ _ _ _ Hl Hd).
    eexists. split; reflexivity.
Qed.

Lemma json_documents_witness :
  exists v,
    build_tree demo_fs 1 "/locked" false None 0 = Some (Ok v)
    /\ json_dumps v
       = ("{" ++ newline_indent 1 ++ encode_basestring access_denied
           ++ ": null" ++ newline_indent 0 ++ "}")%string.
Proof.
  destruct json_documents as (_ & _ & _ & _ & H).
  exact (H demo_fs 0%nat "/locked" false None 0%Z eq_refl eq_refl).
Defined.

(** C5 as stated fails: the document of a directory that cannot be
    listed is not the label as a bare string but a mapping. *)
Lemma access_denied_is_a_mapping :
  exists v,
    build_tree demo_fs 1 "/locked" false None 0 = Some (Ok v)
    /\ json_dumps v <> encode_basestring access_denied
    /\ String.get 0 (json_dumps v) = Some "{"%char.
Proof.
  eexists. split; [reflexivity|]. split; [discriminate | reflexivity].
Qed.

(** ** The program *)

(** When the walk returns a dictionary the program writes both files and
    ends with status 0. *)
Lemma main_completes_on_dict (fs : filesystem) (fuel : nat) (args : arguments)
    (t : dict value) :
  os_path_exists fs (os_path_abspath fs (arg_directory args)) = true ->
  build_tree fs fuel (os_path_abspath fs (arg_directory args))
    (arg_show_hidden args) (arg_max_depth args) 0 = Some (Ok (VDict t)) ->
  exists r,
    main fs fuel args = Some r
    /\ exit_status r = Exit 0
    /\ map fst (written r)
       = [os_path_join (os_path_abspath fs (arg_directory args)) "directory_tree.json";
          os_path_join (os_path_abspath fs (arg_directory args)) "directory_tree.png"].
Proof.
  intros Hex Hv. unfold main. rewrite Hex, Hv. cbn [negb].
  unfold generate_tree_image.
  destruct (add_nodes_edges_from_tree_dict t
              (if String.eqb (os_path_basename (os_path_abspath fs (arg_directory args))) ""
               then os_path_abspath fs (arg_directory args)
               else os_path_basename (os_path_abspath fs (arg_directory args)))
              (add_node (Graph [] [])
                 (Node
                    (if String.eqb (os_path_basename (os_path_abspath fs (arg_directory args))) ""
                     then os_path_abspath fs (arg_directory args)
                     else os_path_basename (os_path_abspath fs (arg_directory args)))
                    (if String.eqb (os_path_basename (os_path_abspath fs (arg_directory args))) ""
                     then os_path_abspath fs (arg_directory args)
                     else os_path_basename (os_path_abspath fs (arg_directory args)))
                    box))) as [g' Hg].
  rewrite Hg. eexists. split; [reflexivity|]. split; reflexivity.
Qed.

(** C8 fails on the code.  With [--max-depth 0] on a directory that
    exists, [build_tree] returns the depth-limit message itself; the text
    tree is that one line and the JSON file holds the bare string; then
    [add_nodes_edges_from_tree] calls [items()] on the string, the
    [AttributeError] ends the run with status 1 and no image is written. *)
Theorem max_depth_zero_aborts (fs : filesystem) (fuel : nat) (args : arguments) :
  os_path_exists fs (os_path_abspath fs (arg_directory args)) = true ->
  arg_max_depth args = Some 0%Z ->
  exists r,
    main fs (S fuel) args = Some r
    /\ (exists header footer, stdout r = [header; depth_message; footer])
    /\ written r
       = [(os_path_join (os_path_abspath fs (arg_directory args)) "directory_tree.json",
           JsonText (encode_basestring depth_message))]
    /\ exit_status r = Traceback AttributeError
    /\ exit_code (exit_status r) = 1%Z.
Proof.
  intros Hex Hmd. unfold main. rewrite Hex, Hmd. cbn [negb].
  cbn [build_tree depth_limit_reached Z.geb Z.compare].
  eexists. split; [reflexivity|]. cbn [stdout written exit_status].
  split; [do 2 eexists; reflexivity|]. repeat split.
Qed.

Lemma max_depth_zero_aborts_witness :
  exists r,
    main demo_fs 1 {| arg_directory := "/r"; arg_show_hidden := false;
                      arg_max_depth := Some 0%Z |} = Some r
    /\ exit_status r = Traceback AttributeError
    /\ written r = [("/r/directory_tree.json", JsonText (encode_basestring depth_message))].
Proof.
  destruct (max_depth_zero_aborts demo_fs 0
              {| arg_directory := "/r"; arg_show_hidden := false;
                 arg_max_depth := Some 0%Z |} eq_refl eq_refl)
    as (r & Hr & _ & Hw & Hs & _).
  exists r. split; [exact Hr|]. split; [exact Hs | exact Hw].
Defined.


(** ** Reading the document back *)

Lemma scan_string_escape_char (c : ascii) (tail : string) :
  scan_string (escape_char c ++ tail)
  = match scan_string tail with
    | Some (str, r) => Some (String c str, r)
    | None => None
    end.
Proof. destruct c as [[] [] [] [] [] [] [] []]; reflexivity. Qed.

(** Every name is read back as it was written. *)
Lemma scan_string_escape (s rest : string) :
  scan_string (escape s ++ String dquote rest) = Some (s, rest).
Proof.
  induction s as [|c s IH]; [reflexivity|].
  cbn [escape]. rewrite string_app_assoc, scan_string_escape_char, IH. reflexivity.
Qed.

Lemma skip_ws_spaces (n : nat) (rest : string) :
  skip_ws (spaces n ++ rest) = skip_ws rest.
Proof. induction n as [|n IH]; [reflexivity | exact IH]. Qed.

Lemma skip_ws_newline_indent (level : nat) (rest : string) :
  skip_ws (newline_indent level ++ rest) = skip_ws rest.
Proof. unfold newline_indent. cbn [String.append]. apply skip_ws_spaces. Qed.

(** A document starts with a character that is not white space. *)
Lemma json_encode_head (v : value) (level : nat) :
  exists c t, json_encode v level = String c t /\ is_whitespace c = false.
Proof.
  destruct v as [|s|[|[k x] items]]; cbn [json_encode];
    do 2 eexists; (split; [reflexivity|reflexivity]).
Qed.

Lemma skip_ws_json_encode (v : value) (level : nat) (rest : string) :
  skip_ws (json_encode v level ++ rest) = (json_encode v level ++ rest)%string.
Proof.
  destruct (json_encode_head v level) as (c & t & -> & Hc).
  cbn [String.append skip_ws]. now rewrite Hc.
Qed.

Lemma dict_set_fresh {V : Type} (d : dict V) (k : string) (v : V) :
  ~ In k (keys d) -> dict_set d k v = d ++ [(k, v)].
Proof.
  induction d as [|[k0 v0] d IH]; simpl; [reflexivity|].
  destruct (String.eqb_spec k0 k) as [->|Hne]; [tauto|].
  intros H. f_equal. auto.
Qed.

Lemma unique_keys_child (items : list (string * value)) (k : string) (x : value) :
  unique_keys (VDict items) -> In (k, x) items -> unique_keys x.
Proof. intros H Hin its Hits. apply H. eapply occurs_below; eauto. Qed.

Lemma skip_ws_keep (c : ascii) (s : string) :
  is_whitespace c = false -> skip_ws (String c s) = String c s.
Proof. intros H. cbn [skip_ws]. now rewrite H. Qed.

Lemma skip_ws_drop (c : ascii) (s : string) :
  is_whitespace c = true -> skip_ws (String c s) = skip_ws s.
Proof. intros H. cbn [skip_ws]. now rewrite H. Qed.

(** Reading on from a character the encoder wrote. *)
Ltac read_char :=
  first
    [ rewrite skip_ws_newline_indent
    | rewrite skip_ws_json_encode
    | rewrite skip_ws_keep by reflexivity
    | rewrite skip_ws_drop by reflexivity ];
  cbv beta iota.

Lemma parse_members_encode (level : nat) (its : list (string * value)) :
  Forall (fun kv => reads_back (snd kv)) its ->
  forall k x acc rest fuel,
    reads_back x -> unique_keys x ->
    Forall (fun kv => unique_keys (snd kv)) its ->
    NoDup (keys acc ++ k :: keys its) ->
    (items_size ((k, x) :: its) <= fuel)%nat ->
    parse_members fuel
      (escape k ++ String dquote
         (String ":" (String " "
            (json_encode x (S level) ++ members_tail level its rest))))%string acc
    = Some (VDict (acc ++ (k, x) :: its), rest).
Proof.
  induction 1 as [|[k' x'] its Hx' _ IH];
    intros k x acc rest fuel Hx Hux Hu Hnd Hfuel;
    (destruct fuel as [|fuel]; [unfold items_size in Hfuel; simpl in Hfuel; lia|]);
    cbn [parse_members]; rewrite scan_string_escape;
    read_char; change (Ascii.eqb ":" ":") with true; cbv beta iota;
    do 2 read_char;
    (rewrite Hx; [| exact Hux | unfold items_size in Hfuel; simpl in Hfuel; lia]);
    (rewrite dict_set_fresh
       by (intros Hin; apply NoDup_remove_2 in Hnd; apply Hnd, in_or_app; auto)).
  - unfold members_tail. cbn [encode_items String.append].
    do 2 read_char. reflexivity.
  - unfold members_tail. cbn [encode_items]. cbn [snd] in Hx'.
    rewrite !string_app_assoc. cbn [String.append].
    read_char. change (Ascii.eqb "," "}") with false.
    change (Ascii.eqb "," ",") with true. cbv beta iota.
    read_char. unfold encode_basestring. cbn [String.append].
    read_char. rewrite Ascii.eqb_refl.
    rewrite !string_app_assoc. cbn [String.append].
    inversion Hu as [|? ? Hux' Hu']; subst.
    fold (members_tail level its rest).
    rewrite (IH k' x' (acc ++ [(k, x)]) rest fuel); auto.
    + now rewrite <- app_assoc.
    + unfold keys in *. rewrite map_app, <- app_assoc. exact Hnd.
    + unfold items_size in *. simpl in *. lia.
Qed.

Lemma json_encode_reads_back (v : value) : reads_back v.
Proof.
  induction v as [|s|items IH] using value_nested_ind;
    intros level rest fuel Hu Hfuel;
    (destruct fuel as [|fuel]; [simpl in Hfuel; lia|]).
  - reflexivity.
  - cbn [json_encode]. unfold encode_basestring.
    repeat (progress cbn [String.append] || rewrite string_app_assoc).
    cbn [parse_value].
    rewrite Ascii.eqb_refl, scan_string_escape. reflexivity.
  - destruct items as [|[k x] its]; [reflexivity|].
    cbn [json_encode encode_items]. unfold encode_basestring.
    repeat (progress cbn [String.append] || rewrite string_app_assoc).
    cbn [parse_value].
    change (Ascii.eqb "{" dquote) with false.
    change (Ascii.eqb "{" "{") with true. cbv beta iota.
    do 2 read_char. rewrite Ascii.eqb_refl.
    change (Ascii.eqb dquote "}") with false. cbv beta iota.
    repeat (progress cbn [String.append] || rewrite string_app_assoc).
    fold (members_tail level its rest).
    inversion IH as [|? ? Hx Hits]; subst. cbn [snd] in Hx.
    apply (parse_members_encode level its Hits k x [] rest fuel Hx).
    + eapply unique_keys_child; [exact Hu | now left].
    + apply Forall_forall. intros [k' x'] Hin.
      eapply unique_keys_child; [exact Hu | right; exact Hin].
    + exact (Hu _ (occurs_here _)).
    + cbn [value_size] in Hfuel. unfold items_size. lia.
Qed.

Lemma string_length_app (a b : string) :
  String.length (a ++ b) = (String.length a + String.length b)%nat.
Proof. induction a as [|c a IH]; simpl; congruence. Qed.

Lemma encode_items_length (level : nat) (its : list (string * value)) :
  Forall (fun kv => forall l, (value_size (snd kv) <= String.length (json_encode (snd kv) l))%nat) its ->
  forall first,
    (items_size its <= String.length (encode_items json_encode level first its))%nat.
Proof.
  induction 1 as [|[k x] its Hx _ IH]; intros first; [apply Nat.le_0_l|].
  cbn [encode_items]. unfold items_size in *. cbn [map list_sum snd] in *.
  rewrite !string_length_app. unfold encode_basestring. cbn [String.length].
  specialize (Hx (S level)). specialize (IH false).
  cbn [list_sum fold_right].
  fold (list_sum (map (fun kv : string * value => S (value_size (snd kv))) its)).
  lia.
Qed.

Lemma value_size_le_length (v : value) :
  forall level, (value_size v <= String.length (json_encode v level))%nat.
Proof.
  induction v as [|s|items IH] using value_nested_ind; intros level.
  - simpl. lia.
  - simpl. lia.
  - destruct items as [|kv its]; [simpl; lia|].
    assert (H := encode_items_length level (kv :: its) IH true).
    cbn [value_size json_encode]. fold (items_size (kv :: its)).
    destruct kv as [k x]. rewrite !string_length_app. cbn [String.length]. lia.
Qed.

(** What [json.dump] writes is read back as the value it was given. *)
Lemma json_loads_dumps (v : value) :
  unique_keys v -> json_loads (json_dumps v) = Some v.
Proof.
  intros Hu. unfold json_loads, json_dumps.
  assert (Hs := skip_ws_json_encode v 0 ""). rewrite string_app_nil_r in Hs.
  rewrite Hs.
  assert (Hp : parse_value (S (String.length (json_encode v 0))) (json_encode v 0)
               = Some (v, "")).
  { rewrite <- (string_app_nil_r (json_encode v 0)) at 2.
    apply json_encode_reads_back; auto.
    assert (H := value_size_le_length v 0). lia. }
  rewrite Hp. reflexivity.
Qed.

(** C9.  Reading back the document written for the result of
    [build_tree] gives that very value: the same keys in the same
    (ascending) order, the same nesting, the same strings and [None]s.  A
    file and an empty directory stay apart, as [null] and as the empty
    mapping.  Every name, whatever its bytes, is read back from its
    escaped form. *)
Theorem json_round_trip (fs : filesystem) (fuel : nat) (d : string)
    (show_hidden : bool) (max_depth : option Z) (c : Z) (v : value) :
  build_tree fs fuel d show_hidden max_depth c = Some (Ok v) ->
  json_loads (json_dumps v) = Some v
  /\ (forall items, occurs_in (VDict items) v -> StronglySorted str_lt (keys items))
  /\ json_loads (json_dumps VNone) = Some VNone
  /\ json_loads (json_dumps (VDict [])) = Some (VDict [])
  /\ (forall name rest,
        scan_string (escape name ++ String dquote rest) = Some (name, rest)).
Proof.
  intros Hv.
  assert (Hs := build_tree_keys_sorted _ _ _ _ _ _ _ Hv).
  split; [|split; [exact Hs | split; [reflexivity | split; [reflexivity|]]]].
  - apply json_loads_dumps. intros items Hin.
    apply StronglySorted_lt_NoDup, Hs, Hin.
  - intros name rest. apply scan_string_escape.
Qed.

Lemma json_round_trip_witness :
  exists v,
    build_tree demo_fs 4 "/r" true None 0 = Some (Ok v)
    /\ json_loads (json_dumps v) = Some v.
Proof.
  eexists. split; [reflexivity|].
  exact (proj1 (json_round_trip demo_fs 4 "/r" true None 0 _ eq_refl)).
Defined.

(** * Further properties of the walk *)

(** ** The entries of a listed directory *)

Lemma build_items_keys (fs : filesystem) (recur : string -> option (result value))
    (directory : string) (show_hidden : bool) (items : list string) :
  forall t0 t,
    build_items fs recur directory show_hidden items t0 = Some (t, None) ->
    NoDup (keys t0 ++ items) ->
    keys t = keys t0 ++ filter (visible show_hidden) items.
Proof.
  induction items as [|item rest IH]; intros t0 t H Hnd; simpl in H.
  - inversion H; subst. simpl. now rewrite app_nil_r.
  - assert (Hrest : forall x, NoDup (keys (dict_set t0 item x) ++ rest)
                              /\ keys (dict_set t0 item x) = keys t0 ++ [item]).
    { intros x. rewrite keys_dict_set_notin.
      - split; [|reflexivity]. now rewrite <- app_assoc.
      - intros Hin. apply NoDup_remove_2 in Hnd. apply Hnd, in_or_app. auto. }
    cbn [filter]. unfold visible at 1.
    destruct (andb (negb show_hidden) (startswith item ".")); cbn [negb].
    + apply IH; [exact H|]. now apply NoDup_remove_1 in Hnd.
    + destruct (os_path_isdir fs (os_path_join directory item)).
      * destruct (recur (os_path_join directory item)) as [[sub|e]|];
          try discriminate.
        destruct (Hrest sub) as [Hnd' Hk].
        rewrite (IH _ _ H Hnd'), Hk, <- app_assoc. reflexivity.
      * destruct (Hrest VNone) as [Hnd' Hk].
        rewrite (IH _ _ H Hnd'), Hk, <- app_assoc. reflexivity.
Qed.

(** X1.  A directory that can be listed, and is above the depth limit,
    becomes the dictionary whose keys are the listed names in sorted
    order, the hidden ones left out unless they are shown; an entry that is
    not a directory has the value [None].  An empty directory becomes the
    empty dictionary. *)
Theorem build_tree_lists_directory (fs : filesystem) (fuel : nat) (d : string)
    (show_hidden : bool) (max_depth : option Z) (c : Z)
    (names : list string) (v : value) :
  os_listdir fs d = Ok names ->
  NoDup names ->
  depth_limit_reached max_depth c = false ->
  build_tree fs fuel d show_hidden max_depth c = Some (Ok v) ->
  exists t,
    v = VDict t
    /\ keys t = filter (visible show_hidden) (sorted names)
    /\ (forall k, In k (keys t) ->
          os_path_isdir fs (os_path_join d k) = false ->
          dict_get t k = Some VNone)
    /\ (names = [] -> t = []).
Proof.
  intros Hn Hnd Hl Hv. destruct fuel as [|fuel]; [discriminate|].
  apply build_tree_Ok_inv in Hv
    as [[Hl' _]|[(_ & Hd & _)|(_ & names' & t & Hn' & -> & Hloop)]];
    try congruence.
  assert (names' = names) by congruence. subst names'.
  assert (Hk : keys t = filter (visible show_hidden) (sorted names)).
  { apply (build_items_keys _ _ _ _ _ _ _ Hloop). simpl.
    eapply Permutation_NoDup; [apply sorted_Permutation | exact Hnd]. }
  exists t. split; [reflexivity|]. split; [exact Hk|]. split.
  - intros k Hin Hf. destruct (keys_In _ _ Hin) as [x Hx].
    assert (Hs : StronglySorted str_lt (keys t)).
    { eapply build_items_sorted; eauto using sorted_StronglySorted.
      - constructor.
      - intros k' i []. }
    rewrite (In_dict_get _ _ _ (StronglySorted_lt_NoDup _ Hs) Hx).
    destruct (build_items_entries _ _ _ _ _ _ _ _ Hloop _ _ Hx)
      as [[]|(_ & _ & [[_ ->]|[Hdir _]])]; congruence.
  - intros ->. destruct t as [|[k x] t]; [reflexivity|].
    assert (Hp := sorted_Permutation []).
    apply Permutation_nil in Hp. rewrite Hp in Hk. discriminate.
Qed.

Lemma build_tree_lists_directory_witness :
  exists t,
    build_tree demo_fs 4 "/r" false None 0 = Some (Ok (VDict t))
    /\ keys t = ["B"; "a.txt"; "sub"]
    /\ dict_get t "a.txt" = Some VNone.
Proof.
  assert (Hnd : NoDup ["sub"; "a.txt"; ".git"; "B"])
    by (repeat constructor; simpl; intuition discriminate).
  let r := eval vm_compute in (build_tree demo_fs 4 "/r" false None 0) in
  match r with
  | Some (Ok ?v) =>
      destruct (build_tree_lists_directory demo_fs 4 "/r" false None 0
                  ["sub"; "a.txt"; ".git"; "B"] v eq_refl Hnd eq_refl eq_refl)
        as (t & Ht & Hk & Hf & _)
  end.
  inversion Ht; subst t. eexists. split; [reflexivity|]. split; [exact Hk|].
  apply Hf; [simpl; auto | reflexivity].
Defined.

(** ** Showing hidden entries or not *)

Lemma prune_items_dict_set (t : dict value) (k : string) (v : value) :
  prune_items (dict_set t k v)
  = if startswith k "." then prune_items t
    else dict_set (prune_items t) k (prune_hidden v).
Proof.
  unfold prune_items.
  induction t as [|[k0 v0] t IH]; cbn [dict_set flat_map fst snd].
  - destruct (startswith k "."); reflexivity.
  - destruct (String.eqb_spec k0 k) as [->|Hne]; cbn [flat_map fst snd].
    + destruct (startswith k "."); [reflexivity|].
      cbn [app dict_set]. now rewrite String.eqb_refl.
    + rewrite IH. destruct (startswith k "."); [reflexivity|].
      destruct (startswith k0 "."); [reflexivity|].
      cbn [app dict_set]. apply String.eqb_neq in Hne. now rewrite Hne.
Qed.

Lemma build_items_prune (fs : filesystem)
    (recur_shown recur_hidden : string -> option (result value))
    (directory : string) (items : list string) :
  (forall p v, recur_shown p = Some (Ok v) ->
     recur_hidden p = Some (Ok (prune_hidden v))) ->
  forall t0 t,
    build_items fs recur_shown directory true items t0 = Some (t, None) ->
    build_items fs recur_hidden directory false items (prune_items t0)
    = Some (prune_items t, None).
Proof.
  intros Hrec. induction items as [|item rest IH]; intros t0 t H;
    cbn [build_items negb andb] in *.
  - inversion H; subst. reflexivity.
  - destruct (os_path_isdir fs (os_path_join directory item)).
    + destruct (recur_shown (os_path_join directory item)) as [[sub|e]|] eqn:E;
        try discriminate.
      apply IH in H. rewrite prune_items_dict_set in H.
      destruct (startswith item "."); [exact H|].
      now rewrite (Hrec _ _ E).
    + apply IH in H. rewrite prune_items_dict_set in H.
      destruct (startswith item "."); exact H.
Qed.

(** X2.  Leaving hidden entries out is the same as walking with them
    and then removing, at every depth, the entries whose name starts with
    a dot: when the walk that shows them returns a value, the walk that
    does not returns that value pruned. *)
Theorem build_tree_hidden_is_pruning (fs : filesystem) (max_depth : option Z) :
  forall fuel d c v,
    build_tree fs fuel d true max_depth c = Some (Ok v) ->
    build_tree fs fuel d false max_depth c = Some (Ok (prune_hidden v)).
Proof.
  induction fuel as [|fuel IH]; intros d c v Hv; [discriminate|].
  apply build_tree_Ok_inv in Hv
    as [[Hl ->]|[(Hl & Hd & ->)|(Hl & names & t & Hn & -> & Hloop)]];
    cbn [build_tree]; rewrite Hl.
  - reflexivity.
  - rewrite Hd. reflexivity.
  - rewrite Hn.
    assert (H := build_items_prune fs _
                   (fun p => build_tree fs fuel p false max_depth (c + 1))
                   d (sorted names) (fun p v => IH p (c + 1)%Z v) [] t Hloop).
    change (prune_items []) with (@nil (string * value)) in H.
    rewrite H. reflexivity.
Qed.

Lemma build_tree_hidden_is_pruning_witness :
  exists v,
    build_tree demo_fs 4 "/r" true None 0 = Some (Ok v)
    /\ build_tree demo_fs 4 "/r" false None 0 = Some (Ok (prune_hidden v))
    /\ In ".git" (node_names v)
    /\ ~ In ".git" (node_names (prune_hidden v)).
Proof.
  eexists. split; [reflexivity|]. split.
  - apply (build_tree_hidden_is_pruning demo_fs None 4 "/r" 0). reflexivity.
  - split; [simpl; tauto|]. simpl. intuition discriminate.
Defined.

(** ** Limiting the depth *)

Lemma map_values_dict_set (f : value -> value) (t : dict value) (k : string)
    (v : value) :
  map (fun kv => (fst kv, f (snd kv))) (dict_set t k v)
  = dict_set (map (fun kv => (fst kv, f (snd kv))) t) k (f v).
Proof.
  induction t as [|[k0 v0] t IH]; cbn [dict_set map fst snd]; [reflexivity|].
  destruct (String.eqb k0 k); cbn [map fst snd]; [reflexivity|]. now rewrite IH.
Qed.

Lemma build_items_map_values (fs : filesystem)
    (recur recur' : string -> option (result value)) (f : value -> value)
    (directory : string) (show_hidden : bool) (items : list string) :
  f VNone = VNone ->
  (forall p v, recur p = Some (Ok v) -> recur' p = Some (Ok (f v))) ->
  forall t0 t,
    build_items fs recur directory show_hidden items t0 = Some (t, None) ->
    build_items fs recur' directory show_hidden items
      (map (fun kv => (fst kv, f (snd kv))) t0)
    = Some (map (fun kv => (fst kv, f (snd kv))) t, None).
Proof.
  intros Hnone Hrec. induction items as [|item rest IH]; intros t0 t H;
    cbn [build_items] in *.
  - inversion H; subst. reflexivity.
  - destruct (andb (negb show_hidden) (startswith item ".")); [now apply IH|].
    destruct (os_path_isdir fs (os_path_join directory item)).
    + destruct (recur (os_path_join directory item)) as [[sub|e]|] eqn:E;
        try discriminate.
      rewrite (Hrec _ _ E). apply IH in H. now rewrite map_values_dict_set in H.
    + apply IH in H. now rewrite map_values_dict_set, Hnone in H.
Qed.

(** X3.  A depth limit only cuts: when the walk without a limit returns
    a value, the walk with [max_depth = k] returns that value with every
    directory at depth [k] or more replaced by the depth-limit message,
    and nothing else changed. *)
Theorem build_tree_limit_is_cutting (fs : filesystem) (show_hidden : bool) (k : Z) :
  forall fuel d c0 v,
    build_tree fs fuel d show_hidden None c0 = Some (Ok v) ->
    forall c,
      build_tree fs fuel d show_hidden (Some k) c = Some (Ok (cut_at_depth k c v)).
Proof.
  induction fuel as [|fuel IH]; intros d c0 v Hv c; [discriminate|].
  apply build_tree_Ok_inv in Hv
    as [[Hl _]|[(_ & Hd & ->)|(_ & names & t & Hn & -> & Hloop)]];
    [discriminate| |];
    cbn [build_tree depth_limit_reached cut_at_depth];
    destruct (c >=? k)%Z; try reflexivity.
  - rewrite Hd. reflexivity.
  - rewrite Hn.
    assert (H := build_items_map_values fs _
                   (fun p => build_tree fs fuel p show_hidden (Some k) (c + 1))
                   (cut_at_depth k (c + 1)) d show_hidden (sorted names) eq_refl
                   (fun p v H => IH p (c0 + 1)%Z v H (c + 1)%Z) [] t Hloop).
    cbn [map] in H. rewrite H. reflexivity.
Qed.

Lemma build_tree_limit_is_cutting_witness :
  exists v,
    build_tree demo_fs 4 "/r" false None 0 = Some (Ok v)
    /\ build_tree demo_fs 4 "/r" false (Some 1%Z) 0
       = Some (Ok (cut_at_depth 1 0 v))
    /\ val_at (cut_at_depth 1 0 v) ["sub"] = Some (VStr depth_message)
    /\ val_at (cut_at_depth 1 0 v) ["a.txt"] = Some VNone.
Proof.
  eexists. split; [reflexivity|]. split.
  - apply (build_tree_limit_is_cutting demo_fs false 1 4 "/r" 0). reflexivity.
  - split; reflexivity.
Defined.

(** * Further properties of the text tree *)

Lemma node_names_cons (name : string) (content : value)
    (rest : list (string * value)) :
  node_names (VDict ((name, content) :: rest))
  = name :: node_names content ++ node_names (VDict rest).
Proof. reflexivity. Qed.

Lemma string_values_cons (name : string) (content : value)
    (rest : list (string * value)) :
  string_values (VDict ((name, content) :: rest))
  = match content with
    | VStr s => [s]
    | _ => string_values content
    end ++ string_values (VDict rest).
Proof. reflexivity. Qed.

Lemma render_children_length (its : list (string * value)) :
  Forall (fun kv => forall items prefix,
            snd kv = VDict items ->
            List.length (display_tree (VDict items) prefix)
            = (List.length (node_names (VDict items))
               + List.length (string_values (VDict items)))%nat) its ->
  forall prefix,
    List.length (render_children prefix its)
    = (List.length (node_names (VDict its))
       + List.length (string_values (VDict its)))%nat.
Proof.
  induction 1 as [|[name content] rest Hc _ IH]; intros prefix; [reflexivity|].
  rewrite node_names_cons, string_values_cons.
  cbn [render_children List.length]. rewrite !length_app, IH.
  cbn [snd] in Hc. destruct content as [|s|sub].
  - simpl. lia.
  - simpl. lia.
  - rewrite (Hc sub _ eq_refl). lia.
Qed.

Lemma display_tree_dict_length (v : value) :
  forall items prefix,
    v = VDict items ->
    List.length (display_tree (VDict items) prefix)
    = (List.length (node_names (VDict items))
       + List.length (string_values (VDict items)))%nat.
Proof.
  induction v as [|s|its IH] using value_nested_ind;
    intros items prefix E; try discriminate.
  inversion E; subst items. cbn [display_tree].
  rewrite display_items_render_children by lia.
  now apply render_children_length.
Qed.

(** X4.  The drawing of a dictionary has one line for every name in it,
    at every depth, and one more for every depth-limit message; nothing
    else is printed (so the empty dictionary prints nothing). *)
Theorem display_tree_line_count (items : list (string * value)) (prefix : string) :
  List.length (display_tree (VDict items) prefix)
  = (List.length (node_names (VDict items))
     + List.length (string_values (VDict items)))%nat.
Proof. now apply (display_tree_dict_length (VDict items)). Qed.

Lemma render_children_prefix (its : list (string * value)) :
  Forall (fun kv => forall prefix line,
            In line (display_tree (snd kv) prefix) ->
            exists rest, line = (prefix ++ rest)%string) its ->
  forall prefix line,
    In line (render_children prefix its) ->
    exists rest, line = (prefix ++ rest)%string.
Proof.
  induction 1 as [|[name content] rest Hc _ IH]; intros prefix line Hin;
    [destruct Hin|].
  cbn [render_children] in Hin. destruct Hin as [<-|Hin]; [eauto|].
  apply in_app_or in Hin as [Hin|Hin]; [|eauto].
  cbn [snd] in Hc. destruct content as [|s|sub].
  - destruct Hin.
  - destruct Hin as [<-|[]]. eauto.
  - apply Hc in Hin as [r ->]. rewrite string_app_assoc. eauto.
Qed.

(** X5.  Every line that [display_tree] prints starts with the prefix it
    was called with, so what is drawn below an entry stays behind the
    column of that entry. *)
Theorem display_tree_keeps_prefix (v : value) :
  forall prefix line,
    In line (display_tree v prefix) ->
    exists rest, line = (prefix ++ rest)%string.
Proof.
  induction v as [|s|its IH] using value_nested_ind; intros prefix line Hin.
  - destruct Hin as [<-|[]]. eauto.
  - destruct Hin as [<-|[]]. eauto.
  - cbn [display_tree] in Hin.
    rewrite display_items_render_children in Hin by lia.
    eapply render_children_prefix; eauto.
Qed.

Lemma display_tree_keeps_prefix_witness :
  exists rest, "│   └── HEAD" = ("│   " ++ rest)%string.
Proof.
  apply (display_tree_keeps_prefix (VDict [("HEAD", VNone)]) "│   ").
  simpl. auto.
Defined.

(** * Further properties of the graph *)

Lemma add_items_added (parent_id : string) (its : list (string * value)) :
  Forall (fun kv => forall items p g g',
            snd kv = VDict items ->
            add_nodes_edges_from_tree (VDict items) p g = Ok g' ->
            exists ns es, added (VDict items) p g g' ns es) its ->
  forall g g',
    add_items add_nodes_edges_from_tree parent_id its g = Ok g' ->
    exists ns es, added (VDict its) parent_id g g' ns es.
Proof.
  induction 1 as [|[name child] rest Hc _ IH]; intros g g' Hg.
  - inversion Hg; subst. exists [], []. unfold added.
    rewrite !app_nil_r. repeat split. intros e [].
  - cbn [add_items] in Hg. cbn [snd] in Hc.
    set (child_id := (parent_id ++ "/" ++ name)%string) in *.
    set (n := Node child_id name box) in *.
    unfold added. rewrite node_names_cons, string_values_cons.
    destruct child as [|s|sub].
    + destruct (IH _ _ Hg) as (ns & es & Hn & He & Hd & Hs & Hl).
      exists (n :: ns), ((parent_id, child_id) :: es).
      cbn [add_edge add_node nodes edges] in Hn, He.
      rewrite Hn, He, <- !app_assoc. repeat split.
      * cbn [map snd node_id]. now rewrite Hd.
      * intros e [<-|Hin]; [now left|].
        destruct (Hs e Hin); [now left | right; now right].
      * simpl. rewrite Hl. simpl. lia.
    + destruct (IH _ _ Hg) as (ns & es & Hn & He & Hd & Hs & Hl).
      exists (n :: Node (child_id ++ "_leaf") s ellipse :: ns),
        ((parent_id, child_id) :: (child_id, (child_id ++ "_leaf")%string) :: es).
      cbn [add_edge add_node nodes edges] in Hn, He.
      rewrite Hn, He, <- !app_assoc. repeat split.
      * cbn [map snd node_id]. now rewrite Hd.
      * intros e [<-|[<-|Hin]]; [now left | right; now left |].
        destruct (Hs e Hin); [now left | right; right; now right].
      * simpl. rewrite Hl. simpl. lia.
    + destruct (add_nodes_edges_from_tree (VDict sub) child_id
                  (add_edge (add_node g n) parent_id child_id)) as [g2|e] eqn:E;
        [|discriminate].
      destruct (Hc sub _ _ _ eq_refl E) as (ns2 & es2 & Hn2 & He2 & Hd2 & Hs2 & Hl2).
      destruct (IH _ _ Hg) as (ns & es & Hn & He & Hd & Hs & Hl).
      exists (n :: ns2 ++ ns), ((parent_id, child_id) :: es2 ++ es).
      cbn [add_edge add_node nodes edges] in Hn2, He2.
      rewrite Hn, He, Hn2, He2, <- !app_assoc. repeat split.
      * cbn [map snd node_id]. now rewrite !map_app, Hd, Hd2.
      * intros e [<-|Hin]; [now left|].
        cbn [map node_id]. rewrite map_app.
        apply in_app_or in Hin as [Hin|Hin].
        -- right. destruct (Hs2 e Hin) as [->|H2]; [now left|].
           right. apply in_or_app. now left.
        -- destruct (Hs e Hin) as [H1|H1]; [now left|].
           right. right. apply in_or_app. now right.
      * cbn [List.length]. rewrite !length_app, Hl, Hl2. lia.
Qed.

Lemma add_nodes_edges_from_tree_added (v : value) :
  forall items p g g',
    v = VDict items ->
    add_nodes_edges_from_tree (VDict items) p g = Ok g' ->
    exists ns es, added (VDict items) p g g' ns es.
Proof.
  induction v as [|s|its IH] using value_nested_ind;
    intros items p g g' E Hg; try discriminate.
  inversion E; subst items. cbn [add_nodes_edges_from_tree] in Hg.
  eapply add_items_added; eauto.
Qed.

(** X6.  The graph made from a dictionary is a tree drawn from the root:
    the root node comes first and has no edge into it; every other node
    has exactly one edge into it, added right after the node, so the
    targets of the edges are the nodes after the root, in order; and
    every edge starts at a node of the graph.  There is one edge less
    than there are nodes. *)
Theorem generate_tree_image_is_tree (items : list (string * value))
    (root_label : string) (g : graph) :
  generate_tree_image (VDict items) root_label = Ok g ->
  exists ns,
    nodes g = Node root_label root_label box :: ns
    /\ map snd (edges g) = map node_id ns
    /\ (forall e, In e (edges g) -> In (fst e) (map node_id (nodes g)))
    /\ S (List.length (edges g)) = List.length (nodes g).
Proof.
  unfold generate_tree_image. intros Hg.
  destruct (add_nodes_edges_from_tree_added _ _ _ _ _ eq_refl Hg)
    as (ns & es & Hn & He & Hd & Hs & _).
  cbn [add_node nodes edges app] in Hn, He. exists ns.
  rewrite Hn, He. repeat split; auto.
  - intros e Hin. cbn [map node_id].
    destruct (Hs e Hin) as [->|H]; [now left | now right].
  - cbn [List.length]. f_equal.
    rewrite <- (length_map snd es), Hd. apply length_map.
Qed.

Lemma generate_tree_image_is_tree_witness :
  exists g,
    generate_tree_image
      (VDict [("a.txt", VNone); ("sub", VDict [("b.txt", VNone)])]) "root" = Ok g
    /\ List.length (nodes g) = 4%nat /\ List.length (edges g) = 3%nat.
Proof.
  eexists. split; [reflexivity|].
  destruct (generate_tree_image_is_tree
              [("a.txt", VNone); ("sub", VDict [("b.txt", VNone)])] "root" _ eq_refl)
    as (ns & _ & _ & _ & Hc).
  split; [reflexivity|]. simpl in Hc |- *. lia.
Defined.

(** X7.  The graph has one node for the root and one for every line of
    the text tree: the two outputs show the same entries and the same
    depth-limit messages. *)
Theorem graph_nodes_match_lines (items : list (string * value))
    (root_label : string) (g : graph) :
  generate_tree_image (VDict items) root_label = Ok g ->
  List.length (nodes g) = S (List.length (display_tree (VDict items) "")).
Proof.
  unfold generate_tree_image. intros Hg.
  destruct (add_nodes_edges_from_tree_added _ _ _ _ _ eq_refl Hg)
    as (ns & es & Hn & _ & _ & _ & Hl).
  cbn [add_node nodes app] in Hn. rewrite Hn. cbn [List.length]. f_equal.
  rewrite Hl. symmetry. now apply (display_tree_dict_length (VDict items)).
Qed.

Lemma graph_nodes_match_lines_witness :
  exists v g,
    build_tree demo_fs 4 "/r" false (Some 2%Z) 0 = Some (Ok v)
    /\ generate_tree_image v "r" = Ok g
    /\ List.length (nodes g) = S (List.length (display_tree v "")).
Proof.
  let r := eval vm_compute in (build_tree demo_fs 4 "/r" false (Some 2%Z) 0) in
  match r with
  | Some (Ok (VDict ?t)) =>
      let r' := eval vm_compute in (generate_tree_image (VDict t) "r") in
      match r' with
      | Ok ?g =>
          exists (VDict t), g; split; [reflexivity|]; split; [reflexivity|];
          exact (graph_nodes_match_lines t "r" g eq_refl)
      end
  end.
Defined.

(** * Further properties of the program *)

(** Above the depth limit [build_tree] returns a dictionary. *)
Lemma build_tree_returns_dict (fs : filesystem) (fuel : nat) (d : string)
    (show_hidden : bool) (max_depth : option Z) (c : Z) (v : value) :
  build_tree fs fuel d show_hidden max_depth c = Some (Ok v) ->
  (depth_limit_reached max_depth c = false <-> exists t, v = VDict t).
Proof.
  intros Hv. destruct fuel as [|fuel]; [discriminate|].
  apply build_tree_Ok_inv in Hv
    as [[Hl ->]|[(Hl & _ & ->)|(Hl & names & t & _ & -> & _)]]; rewrite Hl.
  - split; [discriminate | intros [t E]; discriminate].
  - split; eauto.
  - split; eauto.
Qed.



(** X9.  The check at the start of the program is for existence only.
    When the path exists but listing it raises anything other than a
    [PermissionError] (the path is a file, say), the run ends with that
    exception and status 1, having printed nothing and written no file. *)
Theorem main_listing_error_at_root (fs : filesystem) (fuel : nat)
    (args : arguments) (e : exn) :
  os_path_exists fs (os_path_abspath fs (arg_directory args)) = true ->
  depth_limit_reached (arg_max_depth args) 0 = false ->
  os_listdir fs (os_path_abspath fs (arg_directory args)) = Raise e ->
  e <> PermissionError ->
  main fs (S fuel) args
  = Some {| stdout := []; written := []; exit_status := Traceback e |}
  /\ exit_code (Traceback e) = 1%Z.
Proof.
  intros Hex Hl Hd Hne. unfold main. rewrite Hex. cbn [negb].
  rewrite (build_tree_listdir_raises _ _ _ _ _ _ _ Hl Hd).
  destruct e; try congruence; split; reflexivity.
Qed.

Lemma main_listing_error_at_root_witness :
  main demo_fs 1 {| arg_directory := "/r/a.txt"; arg_show_hidden := false;
                    arg_max_depth := None |}
  = Some {| stdout := []; written := [];
            exit_status := Traceback NotADirectoryError |}.
Proof.
  apply (main_listing_error_at_root demo_fs 0
           {| arg_directory := "/r/a.txt"; arg_show_hidden := false;
              arg_max_depth := None |} NotADirectoryError);
    solve [reflexivity | discriminate].
Defined.



(** * A clash of node identifiers *)

(** An entry that is not a directory has the value [None]. *)
Lemma build_tree_file_entry (fs : filesystem) (fuel : nat) (d : string)
    (show_hidden : bool) (max_depth : option Z) (c : Z)
    (names : list string) (k : string) (v : value) :
  os_listdir fs d = Ok names -> In k names -> visible show_hidden k = true ->
  os_path_isdir fs (os_path_join d k) = false ->
  depth_limit_reached max_depth c = false ->
  build_tree fs fuel d show_hidden max_depth c = Some (Ok v) ->
  val_at v [k] = Some VNone.
Proof.
  intros Hn Hin Hvis Hf Hl Hv. destruct fuel as [|fuel]; [discriminate|].
  apply build_tree_Ok_inv in Hv
    as [[Hl' _]|[(_ & Hd & _)|(_ & names' & t & Hn' & -> & Hloop)]];
    try congruence.
  assert (names' = names) by congruence. subst names'.
  assert (Hk : In k (keys t)).
  { eapply build_items_complete; eauto. now apply sorted_In. }
  destruct (keys_In _ _ Hk) as [x Hx].
  assert (Hs : StronglySorted str_lt (keys t)).
  { eapply build_items_sorted; eauto using sorted_StronglySorted.
    - constructor.
    - intros k' i []. }
  cbn [val_at]. rewrite (In_dict_get _ _ _ (StronglySorted_lt_NoDup _ Hs) Hx).
  destruct (build_items_entries _ _ _ _ _ _ _ _ Hloop _ _ Hx)
    as [[]|(_ & _ & [[_ ->]|[Hdir _]])]; congruence.
Qed.

(** With [max_depth = 1] a directory that can be listed gives a value:
    nothing below it is listed. *)
Lemma build_tree_depth_one_returns (fs : filesystem) (fuel : nat) (d : string)
    (show_hidden : bool) (names : list string) :
  os_listdir fs d = Ok names ->
  exists v, build_tree fs (S (S fuel)) d show_hidden (Some 1%Z) 0 = Some (Ok v).
Proof.
  intros Hn.
  destruct (build_tree_returns_within_depth fs show_hidden 1 (S (S fuel)) d 0)
    as [[v|e] Hr]; [lia | simpl; lia | eauto |].
  exfalso. apply build_tree_Raise_inv in Hr
    as (_ & _ & [Hd|(names' & item & _ & _ & _ & _ & Hc)]); [congruence|].
  apply build_tree_Raise_inv in Hc as (Hl & _). discriminate.
Qed.

(** X11.  Node identifiers can clash.  When a directory holds a
    subdirectory [name] and another entry called [name_leaf], a walk with
    [max_depth = 1] gives a graph in which the ellipse of the depth-limit
    message of [name] and the box of [name_leaf] have the same
    identifier. *)
Theorem leaf_identifier_clash (fs : filesystem) (fuel : nat) (d : string)
    (show_hidden : bool) (names : list string) (name root_label : string) :
  os_listdir fs d = Ok names ->
  In name names -> In (name ++ "_leaf")%string names ->
  visible show_hidden name = true ->
  visible show_hidden (name ++ "_leaf") = true ->
  os_path_isdir fs (os_path_join d name) = true ->
  os_path_isdir fs (os_path_join d (name ++ "_leaf")) = false ->
  exists v g id,
    build_tree fs (S (S fuel)) d show_hidden (Some 1%Z) 0 = Some (Ok v)
    /\ generate_tree_image v root_label = Ok g
    /\ In (Node id depth_message ellipse) (nodes g)
    /\ In (Node id (name ++ "_leaf") box) (nodes g).
Proof.
  intros Hn Hin Hin' Hvis Hvis' Hdir Hfile.
  destruct (build_tree_depth_one_returns fs fuel d show_hidden names Hn) as [v Hv].
  assert (Hd : exists t, v = VDict t).
  { apply (build_tree_returns_dict _ _ _ _ _ _ _ Hv). reflexivity. }
  destruct Hd as [t ->].
  destruct (add_nodes_edges_from_tree_dict t root_label
              (add_node (Graph [] []) (Node root_label root_label box)))
    as [g Hg].
  exists (VDict t), g, (root_label ++ "/" ++ name ++ "_leaf")%string.
  split; [exact Hv|]. split; [exact Hg|].
  destruct (add_nodes_edges_from_tree_emits _ _ _ _ Hg) as [_ Hem].
  split.
  - destruct (Hem [name] (VStr depth_message)) as (_ & _ & Hleaf);
      [discriminate | |].
    + apply (build_tree_marker_at _ _ _ _ _ _ _ Hv [name]); [|reflexivity].
      simpl. eauto 6.
    + destruct (Hleaf _ eq_refl) as [H _].
      cbn [node_id_at fold_left] in H. now rewrite !string_app_assoc in H.
  - destruct (Hem [(name ++ "_leaf")%string] VNone) as (H & _);
      [discriminate | |].
    + exact (build_tree_file_entry fs _ d show_hidden (Some 1%Z) 0 names _ _
               Hn Hin' Hvis' Hfile eq_refl Hv).
    + exact H.
Qed.

Lemma leaf_identifier_clash_witness :
  exists v g id,
    build_tree clash_fs 2 "/c" false (Some 1%Z) 0 = Some (Ok v)
    /\ generate_tree_image v "c" = Ok g
    /\ In (Node id depth_message ellipse) (nodes g)
    /\ In (Node id "x_leaf" box) (nodes g).
Proof.
  apply (leaf_identifier_clash clash_fs 0 "/c" false ["x_leaf"; "x"] "x" "c");
    solve [reflexivity | simpl; auto].
Defined.

(** * Further properties of the JSON document *)

(** X12.  The JSON file tells the tree: two values, each without a
    repeated key in any dictionary, that are written as the same text are
    the same value. *)
Theorem json_dumps_injective (v v' : value) :
  unique_keys v -> unique_keys v' -> json_dumps v = json_dumps v' -> v = v'.
Proof.
  intros Hu Hu' E.
  assert (H : json_loads (json_dumps v) = Some v') by (rewrite E; now apply json_loads_dumps).
  rewrite (json_loads_dumps v Hu) in H. congruence.
Qed.

Lemma unique_keys_leaf (v : value) :
  (forall items, v <> VDict items) -> unique_keys v.
Proof.
  intros Hv items H. apply occurs_in_leaf in H; [|exact Hv].
  now destruct (Hv items).
Qed.

Lemma unique_keys_singleton (k : string) (x : value) :
  unique_keys x -> unique_keys (VDict [(k, x)]).
Proof.
  intros Hx items H. inversion H as [|? k' c Hin Hc]; subst.
  - repeat constructor. intros [].
  - destruct Hin as [E|[]]. inversion E; subst. now apply Hx.
Qed.

Lemma json_dumps_injective_witness :
  json_dumps (VDict [("a.txt", VNone)]) = json_dumps (VDict [("a.txt", VNone)])
  /\ VDict [("a.txt", VNone)] = VDict [("a.txt", VNone)].
Proof.
  split; [reflexivity|].
  apply json_dumps_injective;
    [ apply unique_keys_singleton, unique_keys_leaf; discriminate
    | apply unique_keys_singleton, unique_keys_leaf; discriminate
    | reflexivity ].
Defined.

(** * Where the exceptions of the walk come from *)

(** X13.  An exception that leaves [build_tree] was raised by
    [os.listdir] on a directory the walk went down to, above the depth
    limit, and is not a [PermissionError]. *)
Theorem build_tree_raise_origin (fs : filesystem) (show_hidden : bool)
    (max_depth : option Z) :
  forall fuel d c e,
    build_tree fs fuel d show_hidden max_depth c = Some (Raise e) ->
    exists p,
      subdir_chain fs show_hidden d p
      /\ os_listdir fs (path_from d p) = Raise e
      /\ depth_limit_reached max_depth (c + Z.of_nat (List.length p)) = false
      /\ e <> PermissionError.
Proof.
  induction fuel as [|fuel IH]; intros d c e H; [discriminate|].
  apply build_tree_Raise_inv in H
    as (Hl & Hne & [Hd|(names & item & Hn & Hin & Hvis & Hdir & Hc)]).
  - exists []. simpl. rewrite Z.add_0_r. auto.
  - destruct (IH _ _ _ Hc) as (p & Hch & Hp & Hlp & _).
    exists (item :: p). repeat split; eauto.
    replace (c + Z.of_nat (List.length (item :: p)))%Z
      with (c + 1 + Z.of_nat (List.length p))%Z by (simpl List.length; lia).
    exact Hlp.
Qed.

Lemma build_tree_raise_origin_witness :
  exists p,
    subdir_chain demo_fs false "/w" p
    /\ os_listdir demo_fs (path_from "/w" p) = Raise FileNotFoundError.
Proof.
  destruct (build_tree_raise_origin demo_fs false None 4 "/w" 0 FileNotFoundError
              eq_refl) as (p & Hch & Hp & _).
  exists p. split; assumption.
Defined.

(** * Walks that return *)

(** X14.  Without a depth limit the walk returns, with a value or an
    exception, on every file system that has finitely many levels of
    directories below the start: it never nests more calls than there are
    levels. *)
Theorem walk_returns_on_finite_levels (fs : filesystem) (show_hidden : bool)
    (max_depth : option Z) (levels : nat) (d : string) (c : Z) :
  levels_below fs d levels ->
  forall fuel, (levels <= fuel)%nat ->
    exists r, build_tree fs fuel d show_hidden max_depth c = Some r.
Proof.
  intros Hfin fuel Hle.
  destruct (build_tree_returns_on_finite fs show_hidden max_depth levels d c Hfin)
    as [r Hr].
  exists r. eapply build_tree_fuel_le; eauto.
Qed.

Lemma clash_fs_levels : levels_below clash_fs "/c" 3.
Proof.
  intros names item Hl Hin Hd. vm_compute in Hl. inversion Hl; subst names.
  destruct Hin as [<-|[<-|[]]]; [discriminate|].
  intros names item Hl' Hin' Hd'. vm_compute in Hl'. inversion Hl'; subst names.
  destruct Hin' as [<-|[]]. discriminate.
Qed.

Lemma walk_returns_on_finite_levels_witness :
  exists r, build_tree clash_fs 5 "/c" false None 0 = Some r.
Proof.
  apply (walk_returns_on_finite_levels clash_fs false None 3 "/c" 0 clash_fs_levels). lia.
Defined.

(** * The labels of the graph *)

Lemma add_items_labels (parent_id : string) (its : list (string * value)) :
  Forall (fun kv => forall items p g g',
            snd kv = VDict items ->
            add_nodes_edges_from_tree (VDict items) p g = Ok g' ->
            exists ns,
              nodes g' = nodes g ++ ns
              /\ map node_label (filter is_box ns) = node_names (VDict items)
              /\ map node_label (filter is_ellipse ns)
                 = string_values (VDict items)) its ->
  forall g g',
    add_items add_nodes_edges_from_tree parent_id its g = Ok g' ->
    exists ns,
      nodes g' = nodes g ++ ns
      /\ map node_label (filter is_box ns) = node_names (VDict its)
      /\ map node_label (filter is_ellipse ns) = string_values (VDict its).
Proof.
  induction 1 as [|[name child] rest Hc _ IH]; intros g g' Hg.
  - inversion Hg; subst. exists []. now rewrite app_nil_r.
  - cbn [add_items] in Hg. cbn [snd] in Hc.
    rewrite node_names_cons, string_values_cons.
    destruct child as [|s|sub].
    + destruct (IH _ _ Hg) as (ns & Hn & Hb & He).
      cbn [add_edge add_node nodes] in Hn.
      eexists (_ :: ns). rewrite Hn, <- app_assoc. split; [reflexivity|].
      cbn. rewrite Hb, He. auto.
    + destruct (IH _ _ Hg) as (ns & Hn & Hb & He).
      cbn [add_edge add_node nodes] in Hn.
      eexists (_ :: _ :: ns). rewrite Hn, <- !app_assoc. split; [reflexivity|].
      cbn. rewrite Hb, He. auto.
    + destruct (add_nodes_edges_from_tree (VDict sub) _ _) as [g2|e] eqn:E;
        [|discriminate].
      destruct (Hc sub _ _ _ eq_refl E) as (ns2 & Hn2 & Hb2 & He2).
      destruct (IH _ _ Hg) as (ns & Hn & Hb & He).
      cbn [add_edge add_node nodes] in Hn2.
      eexists (_ :: ns2 ++ ns). rewrite Hn, Hn2, <- !app_assoc.
      split; [reflexivity|].
      cbn [filter is_box is_ellipse node_shape map node_label].
      rewrite !filter_app, !map_app, Hb, He, Hb2, He2. auto.
Qed.

Lemma add_nodes_edges_from_tree_labels (v : value) :
  forall items p g g',
    v = VDict items ->
    add_nodes_edges_from_tree (VDict items) p g = Ok g' ->
    exists ns,
      nodes g' = nodes g ++ ns
      /\ map node_label (filter is_box ns) = node_names (VDict items)
      /\ map node_label (filter is_ellipse ns) = string_values (VDict items).
Proof.
  induction v as [|s|its IH] using value_nested_ind;
    intros items p g g' E Hg; try discriminate.
  inversion E; subst items. cbn [add_nodes_edges_from_tree] in Hg.
  eapply add_items_labels; eauto.
Qed.

(** X15.  In the graph made from a dictionary the boxes are labelled,
    in order, with the root label and then the names of the tree, one
    box for every name at every depth; the ellipses are labelled, in
    order, with the string values of the tree, and there are no others. *)
Theorem generate_tree_image_labels (items : list (string * value))
    (root_label : string) (g : graph) :
  generate_tree_image (VDict items) root_label = Ok g ->
  map node_label (filter is_box (nodes g))
  = root_label :: node_names (VDict items)
  /\ map node_label (filter is_ellipse (nodes g)) = string_values (VDict items).
Proof.
  unfold generate_tree_image. intros Hg.
  destruct (add_nodes_edges_from_tree_labels _ _ _ _ _ eq_refl Hg)
    as (ns & Hn & Hb & He).
  cbn [add_node nodes app] in Hn. rewrite Hn.
  cbn [filter is_box is_ellipse node_shape map node_label].
  now rewrite Hb, He.
Qed.

Lemma generate_tree_image_labels_witness :
  exists g,
    generate_tree_image
      (VDict [("a.txt", VNone); ("sub", VStr depth_message)]) "root" = Ok g
    /\ map node_label (filter is_box (nodes g)) = ["root"; "a.txt"; "sub"]
    /\ map node_label (filter is_ellipse (nodes g)) = [depth_message].
Proof.
  eexists. split; [reflexivity|].
  exact (generate_tree_image_labels
           [("a.txt", VNone); ("sub", VStr depth_message)] "root" _ eq_refl).
Defined.

(** * Subtrees *)

(** Without a depth limit the current depth plays no part. *)
Lemma build_tree_unlimited_depth (fs : filesystem) (show_hidden : bool) :
  forall fuel d c c',
    build_tree fs fuel d show_hidden None c = build_tree fs fuel d show_hidden None c'.
Proof.
  induction fuel as [|fuel IH]; intros d c c'; [reflexivity|].
  cbn [build_tree depth_limit_reached].
  destruct (os_listdir fs d) as [names|e]; [|reflexivity].
  rewrite (build_items_ext fs fs
             (fun p => build_tree fs fuel p show_hidden None (c + 1))
             (fun p => build_tree fs fuel p show_hidden None (c' + 1)));
    auto.
Qed.

(** X16.  Without a depth limit, what the tree shows below a directory
    the walk went down to is the tree the program builds when it is
    started on that directory. *)
Theorem build_tree_subtree (fs : filesystem) (fuel : nat) (d : string)
    (show_hidden : bool) (v : value) (p : list string) :
  build_tree fs fuel d show_hidden None 0 = Some (Ok v) ->
  subdir_chain fs show_hidden d p ->
  exists x,
    val_at v p = Some x
    /\ build_tree fs fuel (path_from d p) show_hidden None 0 = Some (Ok x).
Proof.
  intros Hv Hch.
  destruct (build_tree_at fs show_hidden None p fuel d 0 v Hv Hch eq_refl)
    as (x & Hx & Hb).
  exists x. split; [exact Hx|].
  now rewrite (build_tree_unlimited_depth fs show_hidden fuel _ 0
                 (0 + Z.of_nat (List.length p))).
Qed.

Lemma build_tree_subtree_witness :
  exists v x,
    build_tree demo_fs 4 "/r" false None 0 = Some (Ok v)
    /\ val_at v ["sub"] = Some x
    /\ build_tree demo_fs 4 "/r/sub" false None 0 = Some (Ok x).
Proof.
  let r := eval vm_compute in (build_tree demo_fs 4 "/r" false None 0) in
  match r with
  | Some (Ok ?v) =>
      destruct (build_tree_subtree demo_fs 4 "/r" false v ["sub"] eq_refl)
        as (x & Hx & Hb);
        [ simpl; repeat split; exists ["sub"; "a.txt"; ".git"; "B"]; simpl; auto
        | exists v, x; split; [reflexivity | split; [exact Hx | exact Hb]] ]
  end.
Defined.
